(** * SnakeGame: a shallow embedding of [snakeGame/game.py]

    The game keeps the snake as a list of points (head first) together with
    a parallel list of pygame rectangles used for every collision test.
    Numbers follow Python: the board size and the random samples are
    integers ([Z]); the snake's coordinates descend from [self.w/2] (true
    division) and are modelled exactly as rationals ([Q]).  Every value
    that occurs is an integer or a half-integer.

    The embedding is exact as long as the numbers stay where Python's
    floats and pygame's C integers are exact: on the boards of
    [board_fits] (positive sizes with [w + BLOCK] and [h + BLOCK] below
    [2^31]) and in the states the script's loop can hold ([played]).
    Beyond that a float rounds and a rectangle's fields are cut to a C
    [int], which [Q] and [Z] do not follow; the theorems that depend on
    the values of the coordinates therefore carry [board_fits].

    pygame itself is outside the repository.  What the game uses of it is
    modelled as pygame documents and implements it: [Rect(x, y, w, h)]
    converts its arguments to C integers (truncation toward zero),
    [colliderect] is strict overlap of two rectangles, [collidelist] gives
    the index of the first overlapping rectangle or [-1].  Drawing, the
    clock and the window have no influence on the game state and are left
    out, except that [display.set_mode] converts the size to C integers
    and refuses a negative one. *)

From Stdlib Require Import ZArith QArith List Bool Lia.
Import ListNotations.

Local Open Scope Z_scope.

(** ** Outcomes of a call *)

Inductive Exn : Type :=
| IndexError
| AttributeError
| ValueError
| TypeError
| PygameError.

(** [OutOfDraws] is not a behaviour of the program: it marks that the
    finite list of random draws handed to the model was used up while
    [createFruit] was still looping. *)
Inductive result (A : Type) : Type :=
| Ret (a : A)
| Raise (e : Exn)
| OutOfDraws.

Arguments Ret {A} a.
Arguments Raise {A} e.
Arguments OutOfDraws {A}.

Definition bind {A B : Type} (m : result A) (k : A -> result B) : result B :=
  match m with
  | Ret a => k a
  | Raise e => Raise e
  | OutOfDraws => OutOfDraws
  end.

Notation "x <- m ;; k" := (bind m (fun x => k))
  (at level 61, m at next level, right associativity).
Notation "' pat <- m ;; k" := (bind m (fun x => match x with pat => k end))
  (at level 61, pat pattern, m at next level, right associativity).

(** ** Points, directions, constants *)

Record Point : Type := mkPoint { pt_x : Q; pt_y : Q }.

(** Python's [==] on two points: numeric equality of both coordinates. *)
Definition point_eq (p q : Point) : Prop :=
  (pt_x p == pt_x q)%Q /\ (pt_y p == pt_y q)%Q.

Definition point_eqb (p q : Point) : bool :=
  Qeq_bool (pt_x p) (pt_x q) && Qeq_bool (pt_y p) (pt_y q).

Inductive Direction : Type := RIGHT | LEFT | UP | DOWN.

Definition value (d : Direction) : Point :=
  match d with
  | RIGHT => mkPoint 1 0
  | LEFT => mkPoint (-1) 0
  | UP => mkPoint 0 (-1)
  | DOWN => mkPoint 0 1
  end.

Definition Direction_eqb (a b : Direction) : bool :=
  match a, b with
  | RIGHT, RIGHT | LEFT, LEFT | UP, UP | DOWN, DOWN => true
  | _, _ => false
  end.

(** The direction whose vector is the negation of [d]'s. *)
Definition opposite (d : Direction) : Direction :=
  match d with
  | RIGHT => LEFT
  | LEFT => RIGHT
  | UP => DOWN
  | DOWN => UP
  end.

Definition BLOCK : Z := 20.

(** ** pygame rectangles *)

Record Rect : Type := mkRect { left : Z; top : Z; width : Z; height : Z }.

(** Conversion of a Python number to a C [int]: truncation toward zero.
    pygame keeps the result in 32 bits; [Z] follows it while the value
    fits them (see [board_fits]). *)
Definition trunc (q : Q) : Z := Z.quot (Qnum q) (Zpos (Qden q)).

Definition pygame_Rect (x y : Q) (w h : Z) : Rect :=
  mkRect (trunc x) (trunc y) w h.

Definition colliderect (a b : Rect) : bool :=
  if (width a =? 0) || (height a =? 0) || (width b =? 0) || (height b =? 0)
  then false
  else (Z.min (left a) (left a + width a) <? Z.max (left b) (left b + width b))
    && (Z.min (top a) (top a + height a) <? Z.max (top b) (top b + height b))
    && (Z.max (left a) (left a + width a) >? Z.min (left b) (left b + width b))
    && (Z.max (top a) (top a + height a) >? Z.min (top b) (top b + height b)).

Fixpoint collidelist_from (i : Z) (r : Rect) (l : list Rect) : Z :=
  match l with
  | [] => -1
  | r' :: l' => if colliderect r r' then i else collidelist_from (i + 1) r l'
  end.

Definition collidelist (r : Rect) (l : list Rect) : Z := collidelist_from 0 r l.

(** ** The game object *)

Record SnakeGame : Type := mkGame {
  w : Z;
  h : Z;
  direction : Direction;
  score : Z;
  fruit : option Point;
  head : Point;
  snake : list Point;
  snake_rect : list Rect;
  (** [None]: the attribute has not been assigned yet. *)
  fruit_rect : option Rect
}.

Definition set_direction (d : Direction) (g : SnakeGame) : SnakeGame :=
  mkGame (w g) (h g) d (score g) (fruit g) (head g) (snake g) (snake_rect g)
         (fruit_rect g).

Definition rect_of (pt : Point) : Rect :=
  pygame_Rect (pt_x pt) (pt_y pt) BLOCK BLOCK.

(** A Python int handed to pygame as a size: it has to fit a C [long],
    and is then cut to the 32 bits of a C [int]. *)
Definition fits_c_long (z : Z) : bool := (- 2 ^ 63 <=? z) && (z <? 2 ^ 63).

Definition c_int (z : Z) : Z := (z + 2 ^ 31) mod 2 ^ 32 - 2 ^ 31.

(** [pygame.display.set_mode((w,h))]: the size is converted to two C
    integers ("size must be two numbers" when that fails), and a negative
    one is refused. *)
Definition display_set_mode (W H : Z) : result unit :=
  if negb (fits_c_long W && fits_c_long H) then Raise TypeError
  else if (c_int W <? 0) || (c_int H <? 0) then Raise PygameError
  else Ret tt.

(** The game-state part of [__init__] (lines 51-52 and 61-71).  [self.w/2]
    and the subtractions are floats in the source; they are exact, as
    here, while the values stay below [2^53], and the rectangles are those
    of pygame while they fit a C [int] (see [board_fits]). *)
Definition init_state (W H : Z) : SnakeGame :=
  let head0 := mkPoint (inject_Z W / 2)%Q (inject_Z H / 2)%Q in
  let snake0 :=
    [ head0;
      mkPoint (pt_x head0 - inject_Z BLOCK)%Q (pt_y head0);
      mkPoint (pt_x head0 - 2 * inject_Z BLOCK)%Q (pt_y head0) ] in
  mkGame W H RIGHT 0 None head0 snake0 (map rect_of snake0) None.

Definition __init__ (W H : Z) : result SnakeGame :=
  _ <- display_set_mode W H ;;
  Ret (init_state W H).

(** ** Fruit placement *)

(** [random.randint(a, b)] fed with the raw draw [r]: any integer of
    [a..b] can come out, and an empty range raises. *)
Definition randint (a b r : Z) : result Z :=
  if b <? a then Raise ValueError else Ret (a + r mod (b - a + 1)).

(** The sampling loop of [createFruit]: one pair of draws per attempt,
    repeated while the candidate rectangle hits a snake rectangle. *)
Fixpoint createFruit_sample (g : SnakeGame) (draws : list (Z * Z))
  : result (Z * Z * Rect * list (Z * Z)) :=
  match draws with
  | [] => OutOfDraws
  | (r1, r2) :: rest =>
      x <- randint 0 (w g - BLOCK) r1 ;;
      y <- randint 0 (h g - BLOCK) r2 ;;
      let rect := pygame_Rect (inject_Z x) (inject_Z y) BLOCK BLOCK in
      if collidelist rect (snake_rect g) =? -1
      then Ret (x, y, rect, rest)
      else createFruit_sample g rest
  end.

Definition createFruit (draws : list (Z * Z)) (g : SnakeGame)
  : result (SnakeGame * list (Z * Z)) :=
  '(x, y, rect, rest) <- createFruit_sample g draws ;;
  Ret (mkGame (w g) (h g) (direction g) (score g)
              (Some (mkPoint (inject_Z x) (inject_Z y)))
              (head g) (snake g) (snake_rect g) (Some rect),
       rest).

(** ** One step of the game *)

Definition updateScore (g : SnakeGame) : result (bool * SnakeGame) :=
  match fruit g with
  | Some _ =>
      match fruit_rect g with
      | None => Raise AttributeError
      | Some fr =>
          match snake_rect g with
          | [] => Raise IndexError
          | hr :: _ =>
              if colliderect fr hr
              then Ret (true,
                        mkGame (w g) (h g) (direction g) (score g + 1) None
                               (head g) (snake g) (snake_rect g) (fruit_rect g))
              else Ret (false, g)
          end
      end
  | None => Ret (false, g)
  end.

(** [list.pop()]. *)
Definition pop {A : Type} (l : list A) : result (list A) :=
  match l with
  | [] => Raise IndexError
  | _ => Ret (removelast l)
  end.

(** The first half of [move]: the new head is put in front of both lists.
    Its coordinates are float sums in the source, exact as here while they
    stay below [2^53]. *)
Definition insert_head (g : SnakeGame) : result SnakeGame :=
  match snake g with
  | [] => Raise IndexError
  | hd :: _ =>
      let x := (pt_x (value (direction g)) * inject_Z BLOCK + pt_x hd)%Q in
      let y := (pt_y (value (direction g)) * inject_Z BLOCK + pt_y hd)%Q in
      Ret (mkGame (w g) (h g) (direction g) (score g) (fruit g) (head g)
                  (mkPoint x y :: snake g)
                  (pygame_Rect x y BLOCK BLOCK :: snake_rect g)
                  (fruit_rect g))
  end.

(** [move], also handing back what [updateScore] answered inside it. *)
Definition move_ate (g : SnakeGame) : result (bool * SnakeGame) :=
  g1 <- insert_head g ;;
  '(ate, g2) <- updateScore g1 ;;
  if negb ate
  then
    s <- pop (snake g2) ;;
    sr <- pop (snake_rect g2) ;;
    Ret (ate, mkGame (w g2) (h g2) (direction g2) (score g2) (fruit g2)
                     (head g2) s sr (fruit_rect g2))
  else Ret (ate, g2).

Definition move (g : SnakeGame) : result SnakeGame :=
  '(_, g') <- move_ate g ;; Ret g'.

Definition in_range (lo hi : Z) (q : Q) : bool :=
  Qle_bool (inject_Z lo) q && Qle_bool q (inject_Z hi).

Definition isGameOver (g : SnakeGame) : result bool :=
  match snake g with
  | [] => Raise IndexError
  | hd :: _ =>
      match snake_rect g with
      | [] => Raise IndexError
      | hr :: others =>
          Ret (negb (collidelist hr others =? -1)
               || negb (in_range 0 (w g - BLOCK) (pt_x hd))
               || negb (in_range 0 (h g - BLOCK) (pt_y hd)))
      end
  end.

(** [playStep] returns Python's [False] on game over and [True] otherwise;
    the remaining draws are handed back with the new state. *)
Definition playStep (draws : list (Z * Z)) (g : SnakeGame)
  : result (bool * SnakeGame * list (Z * Z)) :=
  g1 <- move g ;;
  over <- isGameOver g1 ;;
  if over then Ret (false, g1, draws)
  else
    match fruit g1 with
    | None => '(g2, rest) <- createFruit draws g1 ;; Ret (true, g2, rest)
    | Some _ => Ret (true, g1, draws)
    end.

(** ** Keyboard control (the event loop, lines 176-192) *)

Inductive Key : Type := K_ESCAPE | K_UP | K_DOWN | K_LEFT | K_RIGHT | K_other.

Definition Key_eqb (a b : Key) : bool :=
  match a, b with
  | K_ESCAPE, K_ESCAPE | K_UP, K_UP | K_DOWN, K_DOWN
  | K_LEFT, K_LEFT | K_RIGHT, K_RIGHT | K_other, K_other => true
  | _, _ => false
  end.

(** What one [KEYDOWN] event does to the game object. *)
Definition keydown (k : Key) (g : SnakeGame) : SnakeGame :=
  let g1 :=
    if Key_eqb k K_UP && negb (Direction_eqb (direction g) DOWN)
    then set_direction UP g
    else if Key_eqb k K_DOWN && negb (Direction_eqb (direction g) UP)
    then set_direction DOWN g
    else g in
  if Key_eqb k K_LEFT && negb (Direction_eqb (direction g1) RIGHT)
  then set_direction LEFT g1
  else if Key_eqb k K_RIGHT && negb (Direction_eqb (direction g1) LEFT)
  then set_direction RIGHT g1
  else g1.

Definition key_of (d : Direction) : Key :=
  match d with
  | RIGHT => K_RIGHT
  | LEFT => K_LEFT
  | UP => K_UP
  | DOWN => K_DOWN
  end.

(** A direction request is the press of that direction's arrow key. *)
Definition requestDirection (d : Direction) (g : SnakeGame) : SnakeGame :=
  keydown (key_of d) g.

(** ** Reachable states *)

(** Any interleaving of key presses and ticks from a fresh game. *)
Inductive reachable (W H : Z) : SnakeGame -> Prop :=
| reach_init : reachable W H (init_state W H)
| reach_key g k : reachable W H g -> reachable W H (keydown k g)
| reach_tick g ds b g' ds' :
    reachable W H g -> playStep ds g = Ret (b, g', ds') -> reachable W H g'.

(** The states in which the main loop calls [playStep]: the fresh game and
    whatever a tick that returned [True] left behind. *)
Inductive running (W H : Z) : SnakeGame -> Prop :=
| run_init : running W H (init_state W H)
| run_key g k : running W H g -> running W H (keydown k g)
| run_tick g ds g' ds' :
    running W H g -> playStep ds g = Ret (true, g', ds') -> running W H g'.

(** The states the script's loop can hold: those of the running game,
    the state a lost tick leaves, and what the key presses of that last
    frame make of it. *)
Inductive played (W H : Z) : SnakeGame -> Prop :=
| played_running g : running W H g -> played W H g
| played_lost g ds g' ds' :
    running W H g -> playStep ds g = Ret (false, g', ds') -> played W H g'
| played_key g k : played W H g -> played W H (keydown k g).

(** The boards on which the embedding is exact: pygame opens them, and
    every coordinate and rectangle edge of a played state fits a C [int]
    (and so is an exact float). *)
Definition board_fits (W H : Z) : Prop :=
  0 < W /\ W + BLOCK < 2 ^ 31 /\ 0 < H /\ H + BLOCK < 2 ^ 31.

(** ** Concrete runs *)

Definition default_game : SnakeGame := init_state 1000 600.

Definition Zpt (a b : Z) : Point := mkPoint (inject_Z a) (inject_Z b).

(** The pixel at which pygame draws each point. *)
Definition pixels (l : list Point) : list (Z * Z) :=
  map (fun p => (trunc (pt_x p), trunc (pt_y p))) l.

(** The state a tick leaves, whatever it answered (the state itself when
    the tick yields none). *)
Definition after_tick (draws : list (Z * Z)) (g : SnakeGame) : SnakeGame :=
  match playStep draws g with
  | Ret (_, g', _) => g'
  | _ => g
  end.

(** The default game after its first tick, when the draws put the fruit at
    pixel (545, 310). *)
Definition game_tick1 : SnakeGame :=
  Eval vm_compute in after_tick [(545, 310)] default_game.

(** ... and after a second tick to the right, which eats that fruit and
    places the next one at (100, 100). *)
Definition game_tick2 : SnakeGame :=
  Eval vm_compute in after_tick [(100, 100)] game_tick1.

(** The default game lost: up and left are pressed within one frame, and
    the tick runs the head into the neck. *)
Definition game_lost : SnakeGame :=
  Eval vm_compute in
    after_tick [] (keydown K_LEFT (keydown K_UP default_game)).

(** A snake along the left wall, heading left. *)
Definition game_at_wall : SnakeGame :=
  let body := [Zpt 0 50; Zpt 20 50; Zpt 40 50] in
  mkGame 100 100 LEFT 0 None (Zpt 0 50) body (map rect_of body) None.


(** ** Predicates of the statements *)

(** Where the head goes in direction [d]: the point [move] computes. *)
Definition advance (d : Direction) (hd : Point) : Point :=
  mkPoint (pt_x (value d) * inject_Z BLOCK + pt_x hd)%Q
          (pt_y (value d) * inject_Z BLOCK + pt_y hd)%Q.

(** The two lists the game keeps side by side agree. *)
Definition synced (g : SnakeGame) : Prop :=
  snake_rect g = map rect_of (snake g).

(** A point inside the rectangle [0, W - BLOCK] x [0, H - BLOCK]. *)
Definition inside_board (W H : Z) (p : Point) : Prop :=
  (0 <= pt_x p)%Q /\ (pt_x p <= inject_Z (W - BLOCK))%Q /\
  (0 <= pt_y p)%Q /\ (pt_y p <= inject_Z (H - BLOCK))%Q.

(** The bounds test of [isGameOver] for a point of a [W] x [H] board. *)
Definition in_bounds (W H : Z) (p : Point) : bool :=
  in_range 0 (W - BLOCK) (pt_x p) && in_range 0 (H - BLOCK) (pt_y p).

(** A coordinate that is a whole multiple of [BLOCK]. *)
Definition grid_aligned (q : Q) : Prop :=
  exists k : Z, (q == inject_Z (k * BLOCK))%Q.

Definition aligned_pt (p : Point) : Prop :=
  grid_aligned (pt_x p) /\ grid_aligned (pt_y p).

(** A coordinate [c/2 + k * BLOCK], kept by the program as a fraction
    over 2. *)
Definition on_lattice (c : Z) (q : Q) : Prop :=
  Qden q = 2%positive /\ exists k : Z, Qnum q = c + 2 * BLOCK * k.

Definition lattice_pt (W H : Z) (p : Point) : Prop :=
  on_lattice W (pt_x p) /\ on_lattice H (pt_y p).

Definition nonneg_pt (p : Point) : Prop :=
  0 <= Qnum (pt_x p) /\ 0 <= Qnum (pt_y p).

(** A fruit as [createFruit] leaves it: an integer pixel position inside
    the board, with its rectangle. *)
Definition fruit_placed (g : SnakeGame) : Prop :=
  match fruit g with
  | None => True
  | Some f =>
      exists fx fy : Z,
        f = Zpt fx fy /\ fruit_rect g = Some (mkRect fx fy BLOCK BLOCK) /\
        0 <= fx <= w g - BLOCK /\ 0 <= fy <= h g - BLOCK
  end.

(** What every reachable state satisfies. *)
Definition reach_inv (W H : Z) (g : SnakeGame) : Prop :=
  w g = W /\ h g = H /\ synced g /\
  Forall (lattice_pt W H) (snake g) /\ fruit_placed g.

(** What the states of a running game satisfy besides: the snake is the
    initial one and no fruit has been placed yet, or every segment has been
    a head inside the board. *)
Definition settled (W H : Z) (g : SnakeGame) : Prop :=
  (snake g = snake (init_state W H) /\ fruit g = None) \/
  Forall nonneg_pt (snake g).

(** The horizontal and vertical components of a direction, as integers. *)
Definition dx (d : Direction) : Z :=
  match d with RIGHT => 1 | LEFT => -1 | _ => 0 end.

Definition dy (d : Direction) : Z :=
  match d with DOWN => 1 | UP => -1 | _ => 0 end.

(** Modelled from the spec: [reset()], which the program does not have (it
    builds one game object and ends with it).  The spec has it
    reinitialise the snake as a 3-segment horizontal line centred on the
    board (head on the centre, body to its left, as in the spec's
    [(50,50),(30,50),(10,50)] on a 100 x 100 board), clear the fruit, set
    the score to 0 and the direction to RIGHT, for the same board. *)
Definition reset (g : SnakeGame) : SnakeGame :=
  let c := mkPoint (inject_Z (w g) / 2)%Q (inject_Z (h g) / 2)%Q in
  let line :=
    [ c;
      mkPoint (pt_x c - inject_Z BLOCK)%Q (pt_y c);
      mkPoint (pt_x c - 2 * inject_Z BLOCK)%Q (pt_y c) ] in
  mkGame (w g) (h g) RIGHT 0 None c line (map rect_of line) None.

(** ** Drawing *)

Definition INNER_BLOCK_COLOR : Z * Z * Z := (255, 0, 0).



(** [pygame.draw.rect(surface, color, (x, y, w, h))], recorded as the
    colour and the rectangle that gets filled; the tuple is converted as
    [Rect] converts its arguments. *)
Definition draw_rect (color : Z * Z * Z) (x y : Q) (w h : Z)
  : Z * Z * Z * Rect :=
  (color, pygame_Rect x y w h).


(** [drawFruit]: [self.fruit.x] on a missing fruit is an attribute error. *)
Definition drawFruit (g : SnakeGame) : result (Z * Z * Z * Rect) :=
  match fruit g with
  | None => Raise AttributeError
  | Some f => Ret (draw_rect INNER_BLOCK_COLOR (pt_x f) (pt_y f) BLOCK BLOCK)
  end.

(** ** The main loop (lines 165-200) *)

Inductive Event : Type :=
| KEYDOWN (key : Key)
| QUIT
| OtherEvent.

(** The loop's variables: the flag [running], the game object and whether
    pygame is still initialised ([pygame.quit()] has not been called). *)
Record Loop : Type := mkLoop {
  keep_running : bool;
  game : SnakeGame;
  pygame_up : bool
}.

(** The body of [for event in pygame.event.get()].  On [QUIT] the source
    assigns [runnig], a variable of its own, so the flag stays. *)
Definition on_event (st : Loop) (e : Event) : Loop :=
  match e with
  | KEYDOWN key =>
      let st1 :=
        if Key_eqb key K_ESCAPE then mkLoop false (game st) false else st in
      mkLoop (keep_running st1) (keydown key (game st1)) (pygame_up st1)
  | QUIT => mkLoop (keep_running st) (game st) false
  | OtherEvent => st
  end.

(** One pass of the [while] body: the tick, then the events of the frame.
    [playStep] starts with [self.sc.fill], which pygame refuses once it
    has been shut down. *)
Definition iteration (frame : list (Z * Z) * list Event) (st : Loop)
  : result Loop :=
  if pygame_up st
  then
    '(b, g', _) <- playStep (fst frame) (game st) ;;
    Ret (fold_left on_event (snd frame) (mkLoop b g' true))
  else Raise PygameError.

(** [while(running)], fed with what each frame brings: the draws for the
    tick and the events polled after it.  Running out of frames while the
    flag is set is reported as [OutOfDraws]. *)
Fixpoint main_loop (frames : list (list (Z * Z) * list Event)) (st : Loop)
  : result Loop :=
  if keep_running st
  then
    match frames with
    | [] => OutOfDraws
    | frame :: rest => st' <- iteration frame st ;; main_loop rest st'
    end
  else Ret st.

(** The script: [game = SnakeGame()], then the loop. *)
Definition main (frames : list (list (Z * Z) * list Event)) : result Loop :=
  g <- __init__ 1000 600 ;;
  main_loop frames (mkLoop true g true).

(** Two frames of the script: up and left are pressed after the first
    tick, and the second tick is lost. *)
Definition frames_lost : list (list (Z * Z) * list Event) :=
  [([(545, 310)], [KEYDOWN K_UP; KEYDOWN K_LEFT]); ([], [])].

Definition loop_lost : Loop :=
  Eval vm_compute in
    match main frames_lost with
    | Ret st => st
    | _ => mkLoop false default_game false
    end.

(** ** Further predicates *)

(** Each segment is one block away from the one behind it. *)
Fixpoint chained (l : list Point) : Prop :=
  match l with
  | p :: (q :: _) as l' => (exists d, point_eq p (advance d q)) /\ chained l'
  | _ => True
  end.

(** No two segments on the same position. *)
Definition distinct_pts (l : list Point) : Prop :=
  ForallOrdPairs (fun p q => ~ point_eq p q) l.

(** The fruit's rectangle touches no segment's rectangle. *)
Definition fruit_clear (g : SnakeGame) : Prop :=
  forall f, fruit g = Some f ->
            Forall (fun seg => colliderect (rect_of f) (rect_of seg) = false)
                   (snake g).

(** The states between two passes of the main loop that began as a fresh
    game of the default size. *)
Definition loop_ok (st : Loop) : Prop :=
  reachable 1000 600 (game st) /\
  (keep_running st = true -> running 1000 600 (game st)).

(** * Properties *)

(** ** The program on small inputs *)

Example default_snake :
  pixels (snake default_game) = [(500, 300); (480, 300); (460, 300)].
Proof. reflexivity. Qed.

Example small_board_snake :
  pixels (snake (init_state 100 100)) = [(50, 50); (30, 50); (10, 50)].
Proof. reflexivity. Qed.

Example small_board_tick :
  exists g', playStep [(3, 4)] (init_state 100 100) = Ret (true, g', []) /\
             pixels (snake g') = [(70, 50); (50, 50); (30, 50)].
Proof. eexists. split; reflexivity. Qed.

Example wall_tick :
  exists g', playStep [] game_at_wall = Ret (false, g', []) /\
             pixels (snake g') = [(-20, 50); (0, 50); (20, 50)].
Proof. eexists. split; reflexivity. Qed.

Example lost_snake :
  pixels (snake game_lost) = [(480, 300); (500, 300); (480, 300)].
Proof. reflexivity. Qed.

(** ** Basic facts about the pygame model *)

Lemma trunc_inject_Z (n : Z) : trunc (inject_Z n) = n.
Proof. unfold trunc; simpl. apply Z.quot_1_r. Qed.

Lemma collidelist_from_free (r : Rect) (l : list Rect) :
  forall i, 0 <= i ->
    (collidelist_from i r l = -1 <->
     Forall (fun r' => colliderect r r' = false) l).
Proof.
  induction l as [|r' l IH]; intros i Hi; simpl.
  - split; auto.
  - destruct (colliderect r r') eqn:E.
    + split; [lia|]. intros HF. inversion HF; congruence.
    + rewrite IH by lia. split; [auto | intros HF; inversion HF; auto].
Qed.

Lemma collidelist_free (r : Rect) (l : list Rect) :
  (collidelist r l =? -1) = true <->
  Forall (fun r' => colliderect r r' = false) l.
Proof.
  rewrite Z.eqb_eq. apply collidelist_from_free. lia.
Qed.

Lemma collidelist_hit (r : Rect) (l : list Rect) :
  (collidelist r l =? -1) = false <->
  Exists (fun r' => colliderect r r' = true) l.
Proof.
  rewrite <- not_true_iff_false, collidelist_free.
  rewrite <- Exists_Forall_neg.
  - split; intros HE; eapply Exists_impl; try exact HE;
      intros a; simpl; destruct (colliderect r a); congruence.
  - intros a. destruct (colliderect r a); [right|left]; congruence.
Qed.

(** Two rectangles of size [BLOCK] overlap exactly when their corners are
    less than [BLOCK] apart on both axes. *)
Lemma colliderect_BLOCK (x1 y1 x2 y2 : Z) :
  colliderect (mkRect x1 y1 BLOCK BLOCK) (mkRect x2 y2 BLOCK BLOCK) = true <->
  Z.abs (x1 - x2) < BLOCK /\ Z.abs (y1 - y2) < BLOCK.
Proof.
  unfold colliderect, BLOCK; simpl.
  rewrite !andb_true_iff, !Z.ltb_lt, !Z.gtb_lt. lia.
Qed.

(** ** What a move does *)

Lemma insert_head_advance (g : SnakeGame) :
  insert_head g =
  match snake g with
  | [] => Raise IndexError
  | hd :: _ =>
      Ret (mkGame (w g) (h g) (direction g) (score g) (fruit g) (head g)
                  (advance (direction g) hd :: snake g)
                  (rect_of (advance (direction g) hd) :: snake_rect g)
                  (fruit_rect g))
  end.
Proof. reflexivity. Qed.

Lemma move_ate_Ret (g g' : SnakeGame) (ate : bool) :
  move_ate g = Ret (ate, g') ->
  exists hd tl,
    snake g = hd :: tl /\
    w g' = w g /\ h g' = h g /\ direction g' = direction g /\
    head g' = head g /\ fruit_rect g' = fruit_rect g /\
    if ate
    then score g' = score g + 1 /\ fruit g' = None /\
         snake g' = advance (direction g) hd :: snake g /\
         snake_rect g' = rect_of (advance (direction g) hd) :: snake_rect g /\
         exists f fr, fruit g = Some f /\ fruit_rect g = Some fr /\
                      colliderect fr (rect_of (advance (direction g) hd)) = true
    else score g' = score g /\ fruit g' = fruit g /\
         snake g' = removelast (advance (direction g) hd :: snake g) /\
         snake_rect g' =
           removelast (rect_of (advance (direction g) hd) :: snake_rect g) /\
         (fruit g = None \/
          exists fr, fruit_rect g = Some fr /\
                     colliderect fr (rect_of (advance (direction g) hd)) = false).
Proof.
  unfold move_ate. rewrite insert_head_advance.
  destruct (snake g) as [|hd tl] eqn:Hs; [discriminate|].
  cbn [bind]. unfold updateScore; cbn [fruit fruit_rect snake_rect].
  intros Hm. exists hd, tl. split; [reflexivity|].
  destruct (fruit g) as [f|] eqn:Hf.
  - destruct (fruit_rect g) as [fr|] eqn:Hfr; [|discriminate].
    destruct (colliderect fr (rect_of (advance (direction g) hd))) eqn:Hc;
      cbn in Hm; inversion Hm; subst; cbn; repeat split; eauto.
  - cbn in Hm. inversion Hm; subst; cbn. repeat split; auto.
Qed.

Lemma move_Ret (g g' : SnakeGame) :
  move g = Ret g' <-> exists ate, move_ate g = Ret (ate, g').
Proof.
  unfold move. destruct (move_ate g) as [[ate g1]| |]; cbn.
  - split; [intros E; inversion E; eauto | intros [a E]; inversion E; auto].
  - split; [discriminate | intros [a E]; discriminate].
  - split; [discriminate | intros [a E]; discriminate].
Qed.

Lemma removelast_cons_length {A : Type} (l : list A) :
  forall a, length (removelast (a :: l)) = length l.
Proof.
  induction l as [|b l IH]; intros a; [reflexivity|].
  change (removelast (a :: b :: l)) with (a :: removelast (b :: l)).
  cbn [length]. f_equal. apply IH.
Qed.

Lemma removelast_Forall {A : Type} (P : A -> Prop) (l : list A) :
  Forall P l -> Forall P (removelast l).
Proof.
  induction 1 as [|a l Ha Hl IH]; [constructor|].
  destruct l as [|b l]; [constructor|].
  change (removelast (a :: b :: l)) with (a :: removelast (b :: l)).
  constructor; assumption.
Qed.

Lemma removelast_map {A B : Type} (f : A -> B) (l : list A) :
  removelast (map f l) = map f (removelast l).
Proof.
  induction l as [|a l IH]; [reflexivity|].
  destruct l as [|b l]; [reflexivity|].
  change (removelast (map f (a :: b :: l)))
    with (f a :: removelast (map f (b :: l))).
  now rewrite IH.
Qed.

(** ** What fruit placement does *)

Lemma randint_range (a b r x : Z) :
  randint a b r = Ret x -> a <= x <= b.
Proof.
  unfold randint. destruct (b <? a) eqn:E; [discriminate|].
  apply Z.ltb_ge in E. intros Hx; inversion Hx; subst.
  pose proof (Z.mod_pos_bound r (b - a + 1)). lia.
Qed.

Lemma createFruit_sample_Ret (g : SnakeGame) (ds : list (Z * Z)) :
  forall x y rect rest,
    createFruit_sample g ds = Ret (x, y, rect, rest) ->
    rect = mkRect x y BLOCK BLOCK /\
    0 <= x <= w g - BLOCK /\ 0 <= y <= h g - BLOCK /\
    Forall (fun r => colliderect rect r = false) (snake_rect g).
Proof.
  induction ds as [|[r1 r2] ds IH]; intros x y rect rest; simpl;
    [discriminate|].
  destruct (randint 0 (w g - BLOCK) r1) as [x1| |] eqn:Hx; try discriminate.
  destruct (randint 0 (h g - BLOCK) r2) as [y1| |] eqn:Hy; try discriminate.
  cbn [bind].
  destruct (collidelist _ (snake_rect g) =? -1) eqn:Hc; [|apply IH].
  intros E; inversion E; subst.
  apply randint_range in Hx, Hy. apply collidelist_free in Hc.
  unfold pygame_Rect in *. rewrite !trunc_inject_Z in *. auto.
Qed.

Lemma createFruit_Ret (g g' : SnakeGame) (ds ds' : list (Z * Z)) :
  createFruit ds g = Ret (g', ds') ->
  exists x y,
    g' = mkGame (w g) (h g) (direction g) (score g) (Some (Zpt x y))
                (head g) (snake g) (snake_rect g)
                (Some (mkRect x y BLOCK BLOCK)) /\
    0 <= x <= w g - BLOCK /\ 0 <= y <= h g - BLOCK /\
    Forall (fun r => colliderect (mkRect x y BLOCK BLOCK) r = false)
           (snake_rect g).
Proof.
  unfold createFruit.
  destruct (createFruit_sample g ds) as [[[[x y] rect] rest]| |] eqn:Hs;
    try discriminate.
  cbn. intros E; inversion E; subst.
  apply createFruit_sample_Ret in Hs as (-> & Hx & Hy & HF).
  exists x, y. auto.
Qed.


(** ** What a tick does *)

Lemma playStep_Ret (g g' : SnakeGame) (ds ds' : list (Z * Z)) (b : bool) :
  playStep ds g = Ret (b, g', ds') ->
  exists ate g1,
    move_ate g = Ret (ate, g1) /\
    isGameOver g1 = Ret (negb b) /\
    if b
    then match fruit g1 with
         | None => createFruit ds g1 = Ret (g', ds')
         | Some _ => g' = g1 /\ ds' = ds
         end
    else g' = g1 /\ ds' = ds.
Proof.
  unfold playStep, move.
  destruct (move_ate g) as [[ate g1]| |] eqn:Hm; try discriminate.
  cbn [bind].
  destruct (isGameOver g1) as [over| |] eqn:Ho; try discriminate.
  cbn [bind]. intros Hp. exists ate, g1. split; [reflexivity|].
  destruct over.
  - inversion Hp; subst. auto.
  - destruct (fruit g1) as [f|] eqn:Hf.
    + inversion Hp; subst. cbn. auto.
    + destruct (createFruit ds g1) as [[g2 rest]| |] eqn:Hc; try discriminate.
      cbn in Hp. inversion Hp; subst. cbn. auto.
Qed.

(** A tick changes the snake and the score only through [move]. *)
Lemma playStep_snake_score (g g' : SnakeGame) (ds ds' : list (Z * Z)) (b : bool) :
  playStep ds g = Ret (b, g', ds') ->
  exists ate g1,
    move_ate g = Ret (ate, g1) /\
    snake g' = snake g1 /\ snake_rect g' = snake_rect g1 /\
    score g' = score g1 /\ direction g' = direction g1 /\
    w g' = w g1 /\ h g' = h g1.
Proof.
  intros Hp. apply playStep_Ret in Hp as (ate & g1 & Hm & _ & Hb).
  exists ate, g1. split; [assumption|].
  destruct b.
  - destruct (fruit g1).
    + destruct Hb; subst; auto 10.
    + apply createFruit_Ret in Hb as (x & y & -> & _). cbn. auto 10.
  - destruct Hb; subst; auto 10.
Qed.

(** ** Equal points have the same rectangle, and it hits itself *)

Lemma trunc_Qeq (p q : Q) : (p == q)%Q -> trunc p = trunc q.
Proof.
  unfold Qeq, trunc. intros E.
  rewrite <- (Z.quot_mul_cancel_r (Qnum p) (Zpos (Qden p)) (Zpos (Qden q)))
    by discriminate.
  rewrite <- (Z.quot_mul_cancel_r (Qnum q) (Zpos (Qden q)) (Zpos (Qden p)))
    by discriminate.
  rewrite E. f_equal. apply Z.mul_comm.
Qed.

Lemma rect_of_point_eq (p q : Point) : point_eq p q -> rect_of p = rect_of q.
Proof.
  intros [Ex Ey]. unfold rect_of, pygame_Rect.
  now rewrite (trunc_Qeq _ _ Ex), (trunc_Qeq _ _ Ey).
Qed.

Lemma colliderect_same (p : Point) : colliderect (rect_of p) (rect_of p) = true.
Proof.
  unfold rect_of, pygame_Rect. apply colliderect_BLOCK.
  rewrite !Z.sub_diag. unfold BLOCK; simpl; lia.
Qed.

Lemma rect_of_Zpt (a b : Z) : rect_of (Zpt a b) = mkRect a b BLOCK BLOCK.
Proof.
  unfold rect_of, pygame_Rect, Zpt; cbn [pt_x pt_y].
  now rewrite !trunc_inject_Z.
Qed.

(** ** The direction control *)

Lemma Direction_eqb_eq (a b : Direction) : Direction_eqb a b = true <-> a = b.
Proof. destruct a, b; simpl; split; congruence. Qed.

Lemma set_direction_same (g : SnakeGame) : set_direction (direction g) g = g.
Proof. destruct g; reflexivity. Qed.

Lemma requestDirection_set (g : SnakeGame) (r : Direction) :
  requestDirection r g =
  set_direction (if Direction_eqb r (opposite (direction g))
                 then direction g else r) g.
Proof.
  destruct g as [gw gh d sc f hd s sr fr].
  destruct r, d; reflexivity.
Qed.

(** ** Growth and score *)

Lemma keydown_set (k : Key) (g : SnakeGame) :
  keydown k g = set_direction (direction (keydown k g)) g.
Proof.
  destruct g as [gw gh d sc f hd s sr fr].
  destruct k, d; reflexivity.
Qed.

Lemma move_ate_length_score (g g1 : SnakeGame) (ate : bool) :
  move_ate g = Ret (ate, g1) ->
  if ate
  then length (snake g1) = S (length (snake g)) /\
       score g1 = score g + 1 /\ fruit g1 = None
  else length (snake g1) = length (snake g) /\ score g1 = score g.
Proof.
  intros Hm.
  apply move_ate_Ret in Hm as (hd & tl & Hs & _ & _ & _ & _ & _ & Hate).
  destruct ate.
  - destruct Hate as (Hsc & Hf & Hsn & _). rewrite Hsn. auto.
  - destruct Hate as (Hsc & _ & Hsn & _).
    rewrite Hsn, removelast_cons_length. auto.
Qed.

(** C3.  In a tick whose [updateScore] answers that the fruit was eaten,
    the snake is one segment longer after the move, the score is one
    higher and the fruit has been cleared; in a tick where it was not
    eaten, length and score are what they were.  The rest of the tick
    changes neither the snake's length nor the score. *)
Theorem eating_grows_by_one (g g1 : SnakeGame) (ate : bool) :
  move_ate g = Ret (ate, g1) ->
  (if ate
   then length (snake g1) = S (length (snake g)) /\
        score g1 = score g + 1 /\ fruit g1 = None
   else length (snake g1) = length (snake g) /\ score g1 = score g) /\
  forall ds b g' ds',
    playStep ds g = Ret (b, g', ds') ->
    length (snake g') = length (snake g1) /\ score g' = score g1.
Proof.
  intros Hm. split.
  - now apply move_ate_length_score.
  - intros ds b g' ds' Hp.
    apply playStep_snake_score in Hp as (ate' & g1' & Hm' & Hsn & _ & Hsc & _).
    rewrite Hm in Hm'. inversion Hm'; subst. now rewrite Hsn, Hsc.
Qed.

Lemma eating_grows_by_one_witness :
  (length (snake game_tick2) = 4%nat /\ score game_tick2 = 1) /\
  (length (snake game_tick1) = 3%nat /\ score game_tick1 = 0).
Proof.
  split.
  - pose proof (eating_grows_by_one game_tick1
                  match move game_tick1 with Ret g => g | _ => game_tick1 end
                  true eq_refl) as [(Hl & Hs & _) Ht].
    destruct (Ht [(100, 100)] true game_tick2 [] eq_refl) as [El Es].
    rewrite El, Es, Hl, Hs. split; reflexivity.
  - pose proof (eating_grows_by_one default_game
                  match move default_game with Ret g => g | _ => default_game end
                  false eq_refl) as [(Hl & Hs) Ht].
    destruct (Ht [(545, 310)] true game_tick1 [] eq_refl) as [El Es].
    rewrite El, Es, Hl, Hs. split; reflexivity.
Defined.

(** C9.  In every state reachable from a fresh game, the snake has three
    segments plus one per point of score. *)
Theorem length_is_three_plus_score (W H : Z) (g : SnakeGame) :
  reachable W H g -> Z.of_nat (length (snake g)) = 3 + score g.
Proof.
  induction 1 as [|g k _ IH|g ds b g' ds' _ IH Hp].
  - reflexivity.
  - rewrite keydown_set. exact IH.
  - apply playStep_snake_score in Hp as (ate & g1 & Hm & Hsn & _ & Hsc & _).
    rewrite Hsn, Hsc.
    apply move_ate_length_score in Hm.
    destruct ate.
    + destruct Hm as (Hl & Hs & _). rewrite Hl, Hs. lia.
    + destruct Hm as (Hl & Hs). rewrite Hl, Hs. exact IH.
Qed.

Lemma game_tick1_running : running 1000 600 game_tick1.
Proof.
  apply (run_tick 1000 600 default_game [(545, 310)] game_tick1 []);
    [apply run_init | reflexivity].
Qed.

Lemma game_tick2_running : running 1000 600 game_tick2.
Proof.
  apply (run_tick 1000 600 game_tick1 [(100, 100)] game_tick2 []);
    [apply game_tick1_running | reflexivity].
Qed.

Lemma running_reachable (W H : Z) (g : SnakeGame) :
  running W H g -> reachable W H g.
Proof.
  induction 1; [apply reach_init | now apply reach_key | eapply reach_tick; eauto].
Qed.

Lemma length_is_three_plus_score_witness :
  reachable 1000 600 game_tick2 /\
  Z.of_nat (length (snake game_tick2)) = 3 + score game_tick2.
Proof.
  assert (reachable 1000 600 game_tick2) as Hr.
  { apply (reach_tick 1000 600 game_tick1 [(100, 100)] true game_tick2 []);
      [|reflexivity].
    apply (reach_tick 1000 600 default_game [(545, 310)] true game_tick1 []);
      [apply reach_init | reflexivity]. }
  split; [exact Hr | exact (length_is_three_plus_score 1000 600 game_tick2 Hr)].
Defined.

(** ** Steering *)

(** What one request does.  The game object holds a single direction: a
    request for its exact opposite leaves the object as it is, any other
    request replaces it.  The next tick moves the head one block along the
    direction held after the request and leaves that direction in place. *)
Theorem reversal_is_ignored (g : SnakeGame) (r : Direction) :
  (r = opposite (direction g) -> requestDirection r g = g) /\
  (r <> opposite (direction g) -> requestDirection r g = set_direction r g) /\
  forall ds b g' ds',
    playStep ds (requestDirection r g) = Ret (b, g', ds') ->
    direction g' = direction (requestDirection r g) /\
    exists hd tl tl',
      snake g = hd :: tl /\
      snake g' = advance (direction (requestDirection r g)) hd :: tl'.
Proof.
  split; [|split].
  - intros ->. rewrite requestDirection_set.
    replace (Direction_eqb _ _) with true
      by (symmetry; now apply Direction_eqb_eq).
    apply set_direction_same.
  - intros Hne. rewrite requestDirection_set.
    destruct (Direction_eqb r (opposite (direction g))) eqn:E;
      [apply Direction_eqb_eq in E; contradiction | reflexivity].
  - intros ds b g' ds' Hp.
    apply playStep_snake_score in Hp
      as (ate & g1 & Hm & Hsn & _ & _ & Hd & _).
    apply move_ate_Ret in Hm as (hd & tl & Hs & _ & _ & Hd1 & _ & _ & Hate).
    split; [congruence|].
    rewrite requestDirection_set in Hs. cbn [set_direction snake] in Hs.
    assert (snake (requestDirection r g) = snake g) as Hsr
      by now rewrite requestDirection_set.
    rewrite Hsn.
    destruct ate.
    + destruct Hate as (_ & _ & -> & _).
      exists hd, tl, (hd :: tl). rewrite Hsr, Hs. auto.
    + destruct Hate as (_ & _ & -> & _).
      exists hd, tl, (removelast (hd :: tl)). rewrite Hsr, Hs. auto.
Qed.

Lemma reversal_is_ignored_witness :
  (requestDirection LEFT default_game = default_game /\
   direction (after_tick [(545, 310)] (requestDirection LEFT default_game))
   = RIGHT) /\
  (direction (requestDirection UP default_game) = UP /\
   direction (after_tick [(545, 310)] (requestDirection UP default_game))
   = UP).
Proof.
  destruct (reversal_is_ignored default_game LEFT) as (Hopp & _ & Htick).
  destruct (reversal_is_ignored default_game UP) as (_ & Hother & Htick').
  split; split.
  - apply Hopp. reflexivity.
  - exact (proj1 (Htick [(545, 310)] true game_tick1 [] eq_refl)).
  - rewrite Hother by discriminate. reflexivity.
  - exact (proj1 (Htick' [(545, 310)] true
                    (after_tick [(545, 310)] (requestDirection UP default_game))
                    [] eq_refl)).
Defined.

(** C4.  The guard compares a request with the direction the object
    holds, which an earlier request since the last tick has already
    replaced, not with the direction the snake travels in.  In the default
    game after its first tick the snake travels right; requests UP and
    then LEFT are both accepted, the object holds LEFT, the opposite of
    the travelling direction, and the next tick puts the head on the
    segment behind it: game over. *)
Lemma reversal_by_two_requests :
  running 1000 600 game_tick1 /\
  pixels (snake game_tick1) = [(520, 300); (500, 300); (480, 300)] /\
  direction game_tick1 = RIGHT /\
  LEFT = opposite (direction game_tick1) /\
  direction (requestDirection UP game_tick1) = UP /\
  direction (requestDirection LEFT (requestDirection UP game_tick1)) = LEFT /\
  exists g',
    playStep [] (requestDirection LEFT (requestDirection UP game_tick1))
    = Ret (false, g', []) /\
    direction g' = LEFT /\
    pixels (snake g') = [(500, 300); (520, 300); (500, 300)].
Proof.
  split; [apply game_tick1_running|].
  do 5 (split; [reflexivity|]).
  eexists. split; [reflexivity|]. split; reflexivity.
Qed.

(** ** Fruit *)

Lemma playStep_alive_fruit (g g' : SnakeGame) (ds ds' : list (Z * Z)) :
  playStep ds g = Ret (true, g', ds') -> exists f, fruit g' = Some f.
Proof.
  intros Hp. apply playStep_Ret in Hp as (ate & g1 & Hm & _ & Hb).
  destruct (fruit g1) as [f|] eqn:Hf.
  - destruct Hb; subst. eauto.
  - apply createFruit_Ret in Hb as (x & y & -> & _). cbn. eauto.
Qed.

(** Between the ticks of a running game the fruit is missing only in the
    fresh game, before the first tick has placed one. *)
Lemma running_without_fruit_is_fresh (W H : Z) (g : SnakeGame) :
  running W H g -> fruit g = None ->
  g = set_direction (direction g) (init_state W H).
Proof.
  induction 1 as [|g k _ IH|g ds g' ds' _ _ Hp]; intros Hnone.
  - reflexivity.
  - rewrite keydown_set in Hnone |- *. cbn [set_direction fruit] in Hnone.
    rewrite (IH Hnone) at 2. reflexivity.
  - apply playStep_alive_fruit in Hp as [f Hf]. congruence.
Qed.

(** C10, as stated, fails in its last clause: the fresh default game is
    a state of the running game, outside any tick and not lost (its first
    tick leaves the game alive), and it has no fruit. *)
Lemma fresh_game_is_without_fruit :
  running 1000 600 default_game /\
  fruit default_game = None /\
  playStep [(545, 310)] default_game = Ret (true, game_tick1, []).
Proof.
  split; [apply run_init|]. split; reflexivity.
Qed.

(** C10, amended.  When a tick ends with the game alive, there is a fruit:
    one eaten during the tick (the move left none) has been replaced by
    [createFruit] before the tick returned.  Between the ticks of a
    running game the fruit is therefore missing only in the fresh game,
    before the first tick has placed one. *)
Theorem fruit_missing_only_before_first_tick (W H : Z) (g : SnakeGame) :
  (forall ds g' ds',
      playStep ds g = Ret (true, g', ds') ->
      (exists f, fruit g' = Some f) /\
      forall g1, move_ate g = Ret (true, g1) ->
                 fruit g1 = None /\ createFruit ds g1 = Ret (g', ds')) /\
  (running W H g -> fruit g = None ->
   g = set_direction (direction g) (init_state W H)).
Proof.
  split.
  - intros ds g' ds' Hp. split; [eapply playStep_alive_fruit; eauto|].
    apply playStep_Ret in Hp as (ate & g1 & Hm & _ & Hb).
    intros g2 Hm2. rewrite Hm in Hm2. inversion Hm2; subst.
    apply move_ate_length_score in Hm as (_ & _ & Hf).
    rewrite Hf in Hb. auto.
  - induction 1 as [|g k _ IH|g ds g' ds' _ _ Hp]; intros Hnone.
    + reflexivity.
    + rewrite keydown_set in Hnone |- *. cbn [set_direction fruit] in Hnone.
      rewrite (IH Hnone) at 2. reflexivity.
    + apply playStep_alive_fruit in Hp as [f Hf]. congruence.
Qed.

Lemma fruit_missing_only_before_first_tick_witness :
  (playStep [(100, 100)] game_tick1 = Ret (true, game_tick2, []) /\
   exists f, fruit game_tick2 = Some f) /\
  (running 1000 600 (keydown K_UP default_game) /\
   fruit (keydown K_UP default_game) = None /\
   keydown K_UP default_game = set_direction UP default_game).
Proof.
  split.
  - split; [reflexivity|].
    exact (proj1 (proj1 (fruit_missing_only_before_first_tick
                           1000 600 game_tick1)
                        [(100, 100)] game_tick2 [] eq_refl)).
  - assert (running 1000 600 (keydown K_UP default_game)) as Hr
      by (apply run_key, run_init).
    split; [exact Hr|]. split; [reflexivity|].
    exact (proj2 (fruit_missing_only_before_first_tick
                    1000 600 (keydown K_UP default_game)) Hr eq_refl).
Defined.



(** ** Invariants of the reachable states *)

Lemma advance_nums (d : Direction) (p : Point) :
  Qden (pt_x p) = 2%positive -> Qden (pt_y p) = 2%positive ->
  Qden (pt_x (advance d p)) = 2%positive /\
  Qden (pt_y (advance d p)) = 2%positive /\
  Qnum (pt_x (advance d p)) = Qnum (pt_x p) + 2 * BLOCK * dx d /\
  Qnum (pt_y (advance d p)) = Qnum (pt_y p) + 2 * BLOCK * dy d.
Proof.
  destruct p as [[nx ex] [ny ey]]. cbn [pt_x pt_y Qden Qnum].
  intros -> ->.
  destruct d; unfold advance, value, BLOCK, dx, dy;
    cbn [pt_x pt_y Qplus Qmult inject_Z Qnum Qden];
    repeat split; try reflexivity; lia.
Qed.

Lemma advance_lattice (W H : Z) (d : Direction) (p : Point) :
  lattice_pt W H p -> lattice_pt W H (advance d p).
Proof.
  intros [[Ex [k Hk]] [Ey [j Hj]]].
  destruct (advance_nums d p Ex Ey) as (Ex' & Ey' & Hx & Hy).
  split; (split; [assumption|]).
  - exists (k + dx d). lia.
  - exists (j + dy d). lia.
Qed.

Lemma init_snake_nums (W H : Z) :
  exists c0 c1 c2,
    snake (init_state W H) = [c0; c1; c2] /\
    lattice_pt W H c0 /\ lattice_pt W H c1 /\ lattice_pt W H c2 /\
    Qnum (pt_x c0) = W /\ Qnum (pt_y c0) = H /\
    Qnum (pt_x c1) = W - 2 * BLOCK /\ Qnum (pt_y c1) = H /\
    Qnum (pt_x c2) = W - 4 * BLOCK /\ Qnum (pt_y c2) = H.
Proof.
  do 3 eexists. split; [reflexivity|].
  unfold lattice_pt, on_lattice, BLOCK.
  cbn [pt_x pt_y Qplus Qminus Qopp Qmult Qdiv Qinv inject_Z Qnum Qden].
  repeat split; try reflexivity; try lia;
    [exists 0 | exists 0 | exists (-1) | exists 0 | exists (-2) | exists 0]; lia.
Qed.

Lemma init_reach_inv (W H : Z) : reach_inv W H (init_state W H).
Proof.
  destruct (init_snake_nums W H) as (c0 & c1 & c2 & Hs & L0 & L1 & L2 & _).
  unfold reach_inv. split; [reflexivity|]. split; [reflexivity|].
  split; [reflexivity|]. split; [|exact I].
  rewrite Hs. repeat (apply Forall_cons; [assumption|]). apply Forall_nil.
Qed.

Lemma set_direction_reach_inv (W H : Z) (d : Direction) (g : SnakeGame) :
  reach_inv W H g -> reach_inv W H (set_direction d g).
Proof. intros HI. exact HI. Qed.

Lemma move_ate_reach_inv (W H : Z) (g g1 : SnakeGame) (ate : bool) :
  reach_inv W H g -> move_ate g = Ret (ate, g1) -> reach_inv W H g1.
Proof.
  intros (Hw & Hh & Hsy & Hl & Hfp) Hm.
  apply move_ate_Ret in Hm
    as (hd & tl & Hs & Hw1 & Hh1 & _ & _ & Hfr & Hate).
  assert (lattice_pt W H (advance (direction g) hd)) as Hnew.
  { apply advance_lattice. rewrite Hs in Hl. now inversion Hl. }
  unfold reach_inv, synced, fruit_placed in *.
  rewrite Hw1, Hh1, Hfr.
  destruct ate.
  - destruct Hate as (_ & -> & -> & -> & _).
    repeat split; auto. cbn [map]. now rewrite Hsy.
  - destruct Hate as (_ & -> & -> & -> & _).
    repeat split; auto.
    + rewrite Hsy. change (removelast (map rect_of (advance (direction g) hd
                                                     :: snake g))
                           = map rect_of (removelast (advance (direction g) hd
                                                        :: snake g))).
      apply removelast_map.
    + apply removelast_Forall. now constructor.
Qed.

Lemma createFruit_reach_inv (W H : Z) (g g' : SnakeGame) (ds ds' : list (Z * Z)) :
  reach_inv W H g -> createFruit ds g = Ret (g', ds') -> reach_inv W H g'.
Proof.
  intros (Hw & Hh & Hsy & Hl & _) Hc.
  apply createFruit_Ret in Hc as (x & y & -> & Hx & Hy & _).
  unfold reach_inv, synced, fruit_placed; cbn.
  repeat split; auto; try lia. exists x, y. repeat split; auto; lia.
Qed.

Lemma playStep_reach_inv (W H : Z) (g g' : SnakeGame) (ds ds' : list (Z * Z))
    (b : bool) :
  reach_inv W H g -> playStep ds g = Ret (b, g', ds') -> reach_inv W H g'.
Proof.
  intros HI Hp. apply playStep_Ret in Hp as (ate & g1 & Hm & _ & Hb).
  pose proof (move_ate_reach_inv W H g g1 ate HI Hm) as HI1.
  destruct b.
  - destruct (fruit g1).
    + destruct Hb; subst; assumption.
    + eapply createFruit_reach_inv; eauto.
  - destruct Hb; subst; assumption.
Qed.

Lemma reachable_reach_inv (W H : Z) (g : SnakeGame) :
  reachable W H g -> reach_inv W H g.
Proof.
  induction 1 as [|g k _ IH|g ds b g' ds' _ IH Hp].
  - apply init_reach_inv.
  - rewrite keydown_set. now apply set_direction_reach_inv.
  - eapply playStep_reach_inv; eauto.
Qed.

(** ** The end of the game *)

Lemma in_range_lattice (c lo hi : Z) (q : Q) :
  on_lattice c q ->
  (in_range lo hi q = true <-> 2 * lo <= Qnum q <= 2 * hi).
Proof.
  destruct q as [n e]. intros [He _]. cbn [Qden] in He. subst e.
  unfold in_range, Qle_bool. cbn [Qnum Qden inject_Z].
  rewrite andb_true_iff, !Z.leb_le. lia.
Qed.

Lemma in_bounds_lattice (W H : Z) (p : Point) :
  lattice_pt W H p ->
  (in_bounds W H p = true <->
   (0 <= Qnum (pt_x p) <= 2 * (W - BLOCK)) /\
   (0 <= Qnum (pt_y p) <= 2 * (H - BLOCK))).
Proof.
  intros [Lx Ly]. unfold in_bounds.
  rewrite andb_true_iff, (in_range_lattice W _ _ _ Lx),
    (in_range_lattice H _ _ _ Ly).
  lia.
Qed.

(** On the lattice and off the negative side, two segments' rectangles
    overlap only when the segments are equal. *)
Lemma overlap_iff_eq (W H : Z) (p q : Point) :
  lattice_pt W H p -> lattice_pt W H q -> nonneg_pt p -> nonneg_pt q ->
  (colliderect (rect_of p) (rect_of q) = true <-> point_eq p q).
Proof.
  destruct p as [[px ex] [py ey]], q as [[qx fx] [qy fy]].
  unfold lattice_pt, on_lattice, nonneg_pt, point_eq, rect_of, pygame_Rect,
    trunc, Qeq.
  cbn [pt_x pt_y Qnum Qden].
  intros [[-> [k1 Hk1]] [-> [k2 Hk2]]] [[-> [k3 Hk3]] [-> [k4 Hk4]]]
         [Hpx Hpy] [Hqx Hqy].
  rewrite colliderect_BLOCK.
  rewrite !Z.quot_div_nonneg by lia.
  unfold BLOCK in *.
  pose proof (Z.div_mod px 2 ltac:(lia)).
  pose proof (Z.div_mod py 2 ltac:(lia)).
  pose proof (Z.div_mod qx 2 ltac:(lia)).
  pose proof (Z.div_mod qy 2 ltac:(lia)).
  pose proof (Z.mod_pos_bound px 2 ltac:(lia)).
  pose proof (Z.mod_pos_bound py 2 ltac:(lia)).
  pose proof (Z.mod_pos_bound qx 2 ltac:(lia)).
  pose proof (Z.mod_pos_bound qy 2 ltac:(lia)).
  lia.
Qed.

Lemma isGameOver_synced (g : SnakeGame) (hd : Point) (body : list Point) :
  synced g -> snake g = hd :: body ->
  isGameOver g =
  Ret (negb (collidelist (rect_of hd) (map rect_of body) =? -1)
       || negb (in_bounds (w g) (h g) hd)).
Proof.
  unfold synced, isGameOver. intros -> ->. cbn [map]. f_equal.
  unfold in_bounds. rewrite negb_andb. now rewrite orb_assoc.
Qed.

(** After a move from a state of a running game, a head inside the board
    means that no segment is on the negative side. *)
Lemma move_settles (W H : Z) (g g1 : SnakeGame) (ate : bool) :
  reach_inv W H g -> settled W H g -> move_ate g = Ret (ate, g1) ->
  exists hd body,
    snake g1 = hd :: body /\
    (in_bounds W H hd = true -> Forall nonneg_pt (snake g1)).
Proof.
  intros HI Hset Hm.
  pose proof (move_ate_reach_inv W H g g1 ate HI Hm) as (_ & _ & _ & Hl1 & _).
  destruct HI as (_ & _ & _ & Hl & _).
  apply move_ate_Ret in Hm as (hd & tl & Hs & _ & _ & _ & _ & _ & Hate).
  set (nh := advance (direction g) hd) in *.
  assert (lattice_pt W H hd) as Lhd by (rewrite Hs in Hl; now inversion Hl).
  assert (lattice_pt W H nh) as Lnh by now apply advance_lattice.
  assert (in_bounds W H nh = true -> nonneg_pt nh) as Hnn.
  { intros Hb. apply (in_bounds_lattice W H nh Lnh) in Hb.
    unfold nonneg_pt. lia. }
  destruct Hset as [[Hinit Hnof] | Hnon].
  - (* first move: nothing to eat, the tail goes *)
    destruct ate.
    { destruct Hate as (_ & _ & _ & _ & f & fr & Hf & _). congruence. }
    destruct Hate as (_ & _ & Hsn & _).
    destruct (init_snake_nums W H)
      as (c0 & c1 & c2 & Hs0 & L0 & L1 & L2 & X0 & Y0 & X1 & Y1 & _).
    rewrite Hinit, Hs0 in Hs. inversion Hs; subst hd tl.
    rewrite Hinit, Hs0 in Hsn. cbn [removelast] in Hsn.
    exists nh, [c0; c1]. split; [exact Hsn|].
    intros Hb. rewrite Hsn.
    apply (in_bounds_lattice W H nh Lnh) in Hb.
    destruct L0 as [[E0x _] [E0y _]].
    destruct (advance_nums (direction g) c0 E0x E0y) as (_ & _ & Hx & Hy).
    fold nh in Hx, Hy.
    assert (-1 <= dx (direction g) <= 1 /\ -1 <= dy (direction g) <= 1)
      by (destruct (direction g); cbn; lia).
    unfold BLOCK in *.
    repeat (apply Forall_cons; [unfold nonneg_pt; lia|]). apply Forall_nil.
  - destruct ate.
    + destruct Hate as (_ & _ & Hsn & _).
      exists nh, (snake g). split; [exact Hsn|].
      intros Hb. rewrite Hsn. constructor; auto.
    + destruct Hate as (_ & _ & Hsn & _).
      exists nh, (removelast (hd :: tl)).
      rewrite Hs in Hsn.
      change (removelast (nh :: hd :: tl)) with (nh :: removelast (hd :: tl))
        in Hsn.
      split; [exact Hsn|].
      intros Hb. rewrite Hsn. constructor; auto.
      apply removelast_Forall. now rewrite <- Hs.
Qed.

Lemma running_inv (W H : Z) (g : SnakeGame) :
  running W H g -> reach_inv W H g /\ settled W H g.
Proof.
  induction 1 as [|g k _ [HI Hset]|g ds g' ds' _ [HI Hset] Hp].
  - split; [apply init_reach_inv | left; split; reflexivity].
  - rewrite keydown_set. split; [exact HI | exact Hset].
  - split; [eapply playStep_reach_inv; eauto|].
    pose proof Hp as Hp'.
    apply playStep_snake_score in Hp' as (ate & g1 & Hm & Hsn & _).
    apply playStep_Ret in Hp as (ate' & g1' & Hm' & Hover & _).
    rewrite Hm in Hm'. inversion Hm'; subst ate' g1'.
    pose proof (move_ate_reach_inv W H g g1 ate HI Hm)
      as (Hw & Hh & Hsy & _).
    destruct (move_settles W H g g1 ate HI Hset Hm) as (hd & body & Hs1 & Hnn).
    rewrite (isGameOver_synced g1 hd body Hsy Hs1), Hw, Hh in Hover.
    inversion Hover as [Hov]. cbn [negb] in Hov.
    apply orb_false_iff in Hov as [_ Hb]. apply negb_false_iff in Hb.
    right. rewrite Hsn. auto.
Qed.

(** ** A tick of a reachable state raises nothing *)

Lemma move_ate_snake_nonempty (g g1 : SnakeGame) (ate : bool) :
  move_ate g = Ret (ate, g1) -> snake g1 <> [].
Proof.
  intros Hm.
  apply move_ate_Ret in Hm as (hd & tl & Hs & _ & _ & _ & _ & _ & Hate).
  destruct ate.
  - destruct Hate as (_ & _ & -> & _). discriminate.
  - destruct Hate as (_ & _ & -> & _). rewrite Hs. discriminate.
Qed.

Lemma reachable_nonempty (W H : Z) (g : SnakeGame) :
  reachable W H g -> snake g <> [].
Proof.
  induction 1 as [|g k _ IH|g ds b g' ds' _ _ Hp].
  - discriminate.
  - rewrite keydown_set. exact IH.
  - apply playStep_snake_score in Hp as (ate & g1 & Hm & -> & _).
    eapply move_ate_snake_nonempty; eauto.
Qed.

Lemma move_ate_returns (W H : Z) (g : SnakeGame) :
  reach_inv W H g -> snake g <> [] ->
  exists ate g1, move_ate g = Ret (ate, g1).
Proof.
  intros (_ & _ & _ & _ & Hfp) Hne.
  unfold move_ate. rewrite insert_head_advance.
  destruct (snake g) as [|hd tl] eqn:Hs; [contradiction|].
  cbn [bind]. unfold updateScore. cbn [fruit fruit_rect snake_rect].
  unfold fruit_placed in Hfp.
  destruct (fruit g) as [f|].
  - destruct Hfp as (fx & fy & _ & -> & _).
    destruct (colliderect _ _); cbn; eauto.
  - cbn. eauto.
Qed.

Lemma createFruit_no_raise (g : SnakeGame) (ds : list (Z * Z)) (e : Exn) :
  BLOCK <= w g -> BLOCK <= h g -> createFruit ds g <> Raise e.
Proof.
  intros Hw Hh. unfold createFruit.
  assert (createFruit_sample g ds <> Raise e) as Hs.
  { induction ds as [|[r1 r2] ds IH]; simpl; [discriminate|].
    unfold randint.
    destruct (w g - BLOCK <? 0) eqn:E1; [apply Z.ltb_lt in E1; lia|].
    destruct (h g - BLOCK <? 0) eqn:E2; [apply Z.ltb_lt in E2; lia|].
    cbn [bind]. destruct (collidelist _ _ =? -1); [discriminate | exact IH]. }
  destruct (createFruit_sample g ds) as [[[[x y] rect] rest]| |];
    cbn; congruence.
Qed.

(** In a reachable state [playStep] meets no [IndexError], no
    [AttributeError] and no [ValueError]: it returns, unless the draws
    handed to it run out inside [createFruit]. *)
Lemma playStep_never_raises (W H : Z) (g : SnakeGame) (ds : list (Z * Z))
    (e : Exn) :
  reachable W H g -> playStep ds g <> Raise e.
Proof.
  intros Hr.
  pose proof (reachable_reach_inv W H g Hr) as HI.
  destruct (move_ate_returns W H g HI (reachable_nonempty W H g Hr))
    as (ate & g1 & Hm).
  pose proof (move_ate_reach_inv W H g g1 ate HI Hm)
    as (Hw & Hh & Hsy & Hl & _).
  pose proof (move_ate_snake_nonempty g g1 ate Hm) as Hne.
  unfold playStep, move. rewrite Hm. cbn [bind].
  destruct (snake g1) as [|hd body] eqn:Hs1; [contradiction|].
  rewrite (isGameOver_synced g1 hd body Hsy Hs1), Hw, Hh. cbn [bind].
  destruct (collidelist _ _ =? -1); cbn [negb orb]; [|discriminate].
  destruct (in_bounds W H hd) eqn:Hb; cbn [negb]; [|discriminate].
  destruct (fruit g1); [discriminate|].
  apply Forall_cons_iff in Hl as [Lhd _].
  apply (in_bounds_lattice W H hd Lhd) in Hb.
  pose proof (createFruit_no_raise g1 ds e) as Hc.
  destruct (createFruit ds g1) as [[g2 rest]| |]; cbn; try discriminate.
  intros E. apply Hc; [unfold BLOCK in *; lia | unfold BLOCK in *; lia |].
  inversion E. reflexivity.
Qed.

Lemma game_over_iff_hit_or_failed_test
    (W H : Z) (g g' : SnakeGame) (ds ds' : list (Z * Z)) (b : bool) :
  running W H g ->
  playStep ds g = Ret (b, g', ds') ->
  exists hd body,
    snake g' = hd :: body /\
    (exists g1, move g = Ret g1 /\ snake g1 = snake g') /\
    (b = false <-> Exists (point_eq hd) body \/ in_bounds W H hd = false).
Proof.
  intros Hrun Hp.
  apply running_inv in Hrun as [HI Hset].
  pose proof Hp as Hp'.
  apply playStep_snake_score in Hp' as (ate & g1 & Hm & Hsn & _).
  apply playStep_Ret in Hp as (ate' & g1' & Hm' & Hover & _).
  rewrite Hm in Hm'. inversion Hm'; subst ate' g1'.
  pose proof (move_ate_reach_inv W H g g1 ate HI Hm)
    as (Hw & Hh & Hsy & Hl1 & _).
  destruct (move_settles W H g g1 ate HI Hset Hm) as (hd & body & Hs1 & Hnn).
  rewrite (isGameOver_synced g1 hd body Hsy Hs1), Hw, Hh in Hover.
  exists hd, body. rewrite Hsn. split; [exact Hs1|]. split.
  { exists g1. split; [|reflexivity]. apply move_Ret. eauto. }
  inversion Hover as [Hov]. clear Hover.
  destruct (in_bounds W H hd) eqn:Hb; cbn [negb] in Hov.
  - (* inside the board: overlap of rectangles is equality of segments *)
    rewrite orb_false_r in Hov.
    specialize (Hnn eq_refl). rewrite Hs1 in Hnn, Hl1.
    apply Forall_cons_iff in Hnn as [Nhd Nbody].
    apply Forall_cons_iff in Hl1 as [Lhd Lbody].
    assert (Exists (fun r => colliderect (rect_of hd) r = true)
                   (map rect_of body)
            <-> Exists (point_eq hd) body) as Hex.
    { rewrite Exists_map. rewrite !Exists_exists.
      split; intros (s & Hin & Hs); exists s; (split; [exact Hin|]);
        rewrite Forall_forall in Nbody, Lbody;
        apply (overlap_iff_eq W H hd s); auto. }
    rewrite <- Hex, <- collidelist_hit.
    destruct b; cbn [negb] in Hov.
    + apply negb_false_iff in Hov. rewrite Hov.
      split; [discriminate | intros [E|E]; discriminate].
    + apply negb_true_iff in Hov. rewrite Hov. split; auto.
  - rewrite orb_true_r in Hov. destruct b; [discriminate|].
    split; auto.
Qed.

Lemma default_board_fits : board_fits 1000 600.
Proof. repeat split; reflexivity. Qed.

Lemma played_reachable (W H : Z) (g : SnakeGame) :
  played W H g -> reachable W H g.
Proof.
  induction 1 as [g Hrun|g ds g' ds' Hrun Hp|g k _ IH].
  - now apply running_reachable.
  - eapply reach_tick; [apply running_reachable|]; eauto.
  - now apply reach_key.
Qed.

(** The bounds test of [isGameOver] says what it should. *)
Lemma in_bounds_inside (W H : Z) (p : Point) :
  in_bounds W H p = true <-> inside_board W H p.
Proof.
  unfold in_bounds, in_range, inside_board.
  rewrite !andb_true_iff, !Qle_bool_iff. change (inject_Z 0) with 0%Q. tauto.
Qed.

(** C1.  In a running game, on a board that fits, a tick answers game over
    exactly when the head of the snake it leaves (new head in front, tail
    removed unless the fruit was eaten) equals another segment of that
    snake or lies outside [0, w - BLOCK] x [0, h - BLOCK]. *)
Theorem game_over_iff_hit_or_outside
    (W H : Z) (g g' : SnakeGame) (ds ds' : list (Z * Z)) (b : bool) :
  board_fits W H ->
  running W H g ->
  playStep ds g = Ret (b, g', ds') ->
  exists hd body,
    snake g' = hd :: body /\
    (exists g1, move g = Ret g1 /\ snake g1 = snake g') /\
    (b = false <-> Exists (point_eq hd) body \/ ~ inside_board W H hd).
Proof.
  intros _ Hrun Hp.
  destruct (game_over_iff_hit_or_failed_test W H g g' ds ds' b Hrun Hp)
    as (hd & body & Hs & Hmove & Hiff).
  exists hd, body. split; [exact Hs|]. split; [exact Hmove|].
  rewrite Hiff, <- in_bounds_inside.
  destruct (in_bounds W H hd); intuition congruence.
Qed.

(** A reversal made of two presses within one frame, then the tick that
    runs the head into the neck. *)
Lemma game_over_iff_hit_or_outside_witness :
  (board_fits 1000 600 /\
   running 1000 600 (keydown K_LEFT (keydown K_UP default_game))) /\
  exists g' hd body,
    playStep [] (keydown K_LEFT (keydown K_UP default_game))
    = Ret (false, g', []) /\
    snake g' = hd :: body /\
    (false = false <->
     Exists (point_eq hd) body \/ ~ inside_board 1000 600 hd).
Proof.
  assert (running 1000 600 (keydown K_LEFT (keydown K_UP default_game)))
    as Hrun by (do 2 apply run_key; apply run_init).
  split; [split; [exact default_board_fits | exact Hrun]|].
  destruct (game_over_iff_hit_or_outside 1000 600
              (keydown K_LEFT (keydown K_UP default_game))
              (after_tick [] (keydown K_LEFT (keydown K_UP default_game)))
              [] [] false default_board_fits Hrun eq_refl)
    as (hd & body & Hs & _ & Hiff).
  eexists _, hd, body. split; [reflexivity|]. split; [exact Hs | exact Hiff].
Defined.

(** ** When the fruit is eaten *)




(** ** The grid *)

(** C6, as stated, fails: the fruit of [game_tick1], a state of the default
    game, sits at pixel (545, 310), no multiple of [BLOCK]; and on a
    1010 x 610 board the fresh snake's head is at (505, 305). *)
Lemma positions_off_the_grid :
  (reachable 1000 600 game_tick1 /\
   fruit game_tick1 = Some (Zpt 545 310) /\
   ~ aligned_pt (Zpt 545 310)) /\
  (reachable 1010 610 (init_state 1010 610) /\
   ~ Forall aligned_pt (snake (init_state 1010 610))).
Proof.
  split; split.
  - apply running_reachable, game_tick1_running.
  - split; [reflexivity|].
    intros [[k Hk] _]. unfold Qeq, BLOCK in Hk. cbn in Hk. lia.
  - apply reach_init.
  - intros HF. apply Forall_inv in HF as [[k Hk] _].
    unfold Qeq, BLOCK in Hk. cbn in Hk. lia.
Qed.

Lemma lattice_aligned (c : Z) (q : Q) :
  (2 * BLOCK | c) -> on_lattice c q -> grid_aligned q.
Proof.
  destruct q as [n e]. intros [m Hm] [He [k Hk]].
  cbn [Qnum Qden] in *. subst e.
  exists (m + k). unfold Qeq, BLOCK in *. cbn [Qnum Qden inject_Z]. lia.
Qed.

(** C6, amended.  On a board that fits and whose width and height are
    multiples of [2 * BLOCK] (the default 1000 x 600 is one), every snake
    segment of every state the game goes through, running or just lost,
    is grid-aligned; the fruit, when there is one, is an integer pixel
    position of [0, w - BLOCK] x [0, h - BLOCK], not necessarily on the
    grid. *)
Theorem snake_on_grid_fruit_on_pixels (W H : Z) (g : SnakeGame) :
  board_fits W H ->
  (2 * BLOCK | W) -> (2 * BLOCK | H) ->
  played W H g ->
  Forall aligned_pt (snake g) /\
  forall f, fruit g = Some f ->
            exists fx fy : Z,
              f = Zpt fx fy /\
              0 <= fx <= W - BLOCK /\ 0 <= fy <= H - BLOCK.
Proof.
  intros _ HW HH Hpl.
  apply played_reachable, reachable_reach_inv in Hpl
    as (Hw & Hh & _ & Hl & Hfp).
  split.
  - eapply Forall_impl; [|exact Hl].
    intros p [Lx Ly].
    split; [exact (lattice_aligned W _ HW Lx) | exact (lattice_aligned H _ HH Ly)].
  - intros f Hf. unfold fruit_placed in Hfp. rewrite Hf in Hfp.
    destruct Hfp as (fx & fy & -> & _ & Hx & Hy).
    exists fx, fy. rewrite <- Hw, <- Hh. auto.
Qed.

Lemma snake_on_grid_fruit_on_pixels_witness :
  (board_fits 1000 600 /\ (2 * BLOCK | 1000) /\ (2 * BLOCK | 600) /\
   played 1000 600 game_lost) /\
  Forall aligned_pt (snake game_lost).
Proof.
  assert (2 * BLOCK | 1000) as HW by (exists 25; reflexivity).
  assert (2 * BLOCK | 600) as HH by (exists 15; reflexivity).
  assert (played 1000 600 game_lost) as Hpl.
  { apply (played_lost 1000 600 (keydown K_LEFT (keydown K_UP default_game))
             [] game_lost []); [|reflexivity].
    do 2 apply run_key. apply run_init. }
  split; [repeat split; try assumption; reflexivity|].
  exact (proj1 (snake_on_grid_fruit_on_pixels 1000 600 game_lost
                  default_board_fits HW HH Hpl)).
Defined.

(** ** Construction *)






(** ** Starting over *)

(** C8.  From any state, a lost game included, [reset] gives the state a
    fresh game of the same board starts in: three segments in a
    horizontal line, [BLOCK] apart, the head on the centre of the board,
    no fruit, score 0, direction RIGHT. *)
Theorem reset_gives_fresh_game (g : SnakeGame) :
  reset g = init_state (w g) (h g) /\
  (forall g0, __init__ (w g) (h g) = Ret g0 -> reset g = g0) /\
  score (reset g) = 0 /\ fruit (reset g) = None /\
  direction (reset g) = RIGHT /\
  exists c c1 c2,
    snake (reset g) = [c; c1; c2] /\
    (2 * pt_x c == inject_Z (w g))%Q /\ (2 * pt_y c == inject_Z (h g))%Q /\
    (pt_x c1 == pt_x c - inject_Z BLOCK)%Q /\ (pt_y c1 == pt_y c)%Q /\
    (pt_x c2 == pt_x c1 - inject_Z BLOCK)%Q /\ (pt_y c2 == pt_y c)%Q.
Proof.
  split; [reflexivity|]. split.
  - unfold __init__. destruct (display_set_mode (w g) (h g)); cbn [bind];
      intros g0 E; inversion E. reflexivity.
  - repeat (split; [reflexivity|]).
    do 3 eexists. split; [reflexivity|].
    unfold Qeq, BLOCK.
    cbn [pt_x pt_y Qplus Qminus Qopp Qmult Qdiv Qinv inject_Z Qnum Qden].
    repeat split; lia.
Qed.

Lemma reset_gives_fresh_game_witness :
  __init__ 1000 600 = Ret default_game /\ reset game_lost = default_game.
Proof.
  split; [reflexivity|].
  exact (proj1 (proj2 (reset_gives_fresh_game game_lost)) default_game eq_refl).
Defined.

(** * Further properties of the program *)

(** ** The shape of a tick that leaves the game alive *)

Lemma alive_tick_shape (W H : Z) (g g' : SnakeGame) (ds ds' : list (Z * Z)) :
  reach_inv W H g ->
  playStep ds g = Ret (true, g', ds') ->
  exists hd tl ate g1,
    snake g = hd :: tl /\
    move_ate g = Ret (ate, g1) /\
    snake g' =
      advance (direction g) hd
      :: (if ate then snake g else removelast (snake g)) /\
    in_bounds W H (advance (direction g) hd) = true /\
    Forall (fun q => colliderect (rect_of (advance (direction g) hd))
                                 (rect_of q) = false)
           (if ate then snake g else removelast (snake g)).
Proof.
  intros HI Hp.
  pose proof Hp as Hp'.
  apply playStep_snake_score in Hp' as (ate & g1 & Hm & Hsn & _).
  apply playStep_Ret in Hp as (ate' & g1' & Hm' & Hover & _).
  rewrite Hm in Hm'. inversion Hm'; subst ate' g1'.
  pose proof (move_ate_reach_inv W H g g1 ate HI Hm) as (Hw & Hh & Hsy & _).
  pose proof Hm as Hm2.
  apply move_ate_Ret in Hm2 as (hd & tl & Hs & _ & _ & _ & _ & _ & Hate).
  set (nh := advance (direction g) hd) in *.
  assert (snake g1 = nh :: (if ate then snake g else removelast (snake g)))
    as Hs1.
  { destruct ate.
    - now destruct Hate as (_ & _ & -> & _).
    - destruct Hate as (_ & _ & -> & _). now rewrite Hs. }
  rewrite (isGameOver_synced g1 _ _ Hsy Hs1), Hw, Hh in Hover.
  injection Hover as Hov. cbn [negb] in Hov.
  apply orb_false_iff in Hov as [Hhit Hb].
  apply negb_false_iff in Hhit, Hb.
  apply collidelist_free in Hhit. rewrite Forall_map in Hhit.
  exists hd, tl, ate, g1. rewrite Hsn. repeat split; assumption.
Qed.

Lemma no_overlap_not_equal (p q : Point) :
  colliderect (rect_of p) (rect_of q) = false -> ~ point_eq p q.
Proof.
  intros Hc Heq. apply rect_of_point_eq in Heq.
  rewrite Heq, colliderect_same in Hc. discriminate.
Qed.

Lemma lattice_point_eq (W H : Z) (p q : Point) :
  lattice_pt W H p -> lattice_pt W H q ->
  (point_eq p q <->
   Qnum (pt_x p) = Qnum (pt_x q) /\ Qnum (pt_y p) = Qnum (pt_y q)).
Proof.
  destruct p as [[px ex] [py ey]], q as [[qx fx] [qy fy]].
  unfold lattice_pt, on_lattice, point_eq, Qeq. cbn [pt_x pt_y Qnum Qden].
  intros [[-> _] [-> _]] [[-> _] [-> _]]. lia.
Qed.

(** ** The body of the snake *)

Lemma chained_removelast (l : list Point) : chained l -> chained (removelast l).
Proof.
  induction l as [|p l IH]; [auto|].
  destruct l as [|q l]; [auto|].
  intros [Hpq Hl]. specialize (IH Hl).
  destruct l as [|r l]; [exact I|].
  change (removelast (p :: q :: r :: l))
    with (p :: q :: removelast (r :: l)).
  change (removelast (q :: r :: l)) with (q :: removelast (r :: l)) in IH.
  split; assumption.
Qed.

Lemma reachable_chained (W H : Z) (g : SnakeGame) :
  reachable W H g -> chained (snake g).
Proof.
  induction 1 as [|g k _ IH|g ds b g' ds' _ IH Hp].
  - destruct (init_snake_nums W H)
      as (c0 & c1 & c2 & -> & L0 & L1 & L2 & X0 & Y0 & X1 & Y1 & X2 & Y2).
    assert (forall p q, lattice_pt W H p -> lattice_pt W H q ->
                        Qnum (pt_x p) = Qnum (pt_x q) + 2 * BLOCK ->
                        Qnum (pt_y p) = Qnum (pt_y q) ->
                        exists d, point_eq p (advance d q)) as Hadj.
    { intros p q Lp Lq Hx Hy. exists RIGHT.
      apply (lattice_point_eq W H); [assumption | now apply advance_lattice |].
      destruct Lq as [[Ex _] [Ey _]].
      destruct (advance_nums RIGHT q Ex Ey) as (_ & _ & -> & ->).
      cbn [dx dy]. lia. }
    cbn [chained]. repeat split; apply Hadj; auto; lia.
  - rewrite keydown_set. exact IH.
  - apply playStep_snake_score in Hp as (ate & g1 & Hm & -> & _).
    apply move_ate_Ret in Hm as (hd & tl & Hs & _ & _ & _ & _ & _ & Hate).
    assert (chained (advance (direction g) hd :: snake g)) as Hc.
    { rewrite Hs. split; [|now rewrite <- Hs].
      exists (direction g). split; reflexivity. }
    destruct ate.
    + destruct Hate as (_ & _ & -> & _). exact Hc.
    + destruct Hate as (_ & _ & -> & _). now apply chained_removelast.
Qed.

(** On a board that fits, in every state the game goes through, running
    or just lost, each segment of the snake is exactly one block,
    horizontally or vertically, from the segment behind it. *)
Theorem snake_is_chained (W H : Z) (g : SnakeGame) :
  board_fits W H -> played W H g -> chained (snake g).
Proof.
  intros _ Hpl. apply (reachable_chained W H). now apply played_reachable.
Qed.

Lemma snake_is_chained_witness :
  (board_fits 1000 600 /\ played 1000 600 game_tick2) /\
  chained (snake game_tick2).
Proof.
  assert (played 1000 600 game_tick2) as Hpl
    by apply played_running, game_tick2_running.
  split; [split; [exact default_board_fits | exact Hpl]|].
  exact (snake_is_chained 1000 600 game_tick2 default_board_fits Hpl).
Defined.

Lemma distinct_removelast (l : list Point) :
  distinct_pts l -> distinct_pts (removelast l).
Proof.
  unfold distinct_pts. induction 1 as [|p l Hp Hl IH]; [constructor|].
  destruct l as [|q l]; [constructor|].
  change (removelast (p :: q :: l)) with (p :: removelast (q :: l)).
  constructor; [now apply removelast_Forall | exact IH].
Qed.

Lemma running_distinct (W H : Z) (g : SnakeGame) :
  running W H g -> distinct_pts (snake g).
Proof.
  induction 1 as [|g k _ IH|g ds g' ds' Hrun IH Hp].
  - destruct (init_snake_nums W H)
      as (c0 & c1 & c2 & -> & L0 & L1 & L2 & X0 & Y0 & X1 & Y1 & X2 & Y2).
    unfold distinct_pts, BLOCK in *.
    repeat constructor; intros Heq;
      apply (lattice_point_eq W H) in Heq; try assumption; lia.
  - rewrite keydown_set. exact IH.
  - apply running_inv in Hrun as [HI _].
    destruct (alive_tick_shape W H g g' ds ds' HI Hp)
      as (hd & tl & ate & g1 & _ & _ & -> & _ & Hfree).
    constructor.
    + eapply Forall_impl; [|exact Hfree].
      intros q. apply no_overlap_not_equal.
    + destruct ate; [exact IH | now apply distinct_removelast].
Qed.

(** On a board that fits, while the game runs, no two segments of the
    snake are on the same position. *)
Theorem running_snake_is_distinct (W H : Z) (g : SnakeGame) :
  board_fits W H -> running W H g -> distinct_pts (snake g).
Proof.
  intros _ Hrun. now apply (running_distinct W H).
Qed.

Lemma running_snake_is_distinct_witness :
  (board_fits 1000 600 /\ running 1000 600 game_tick2) /\
  distinct_pts (snake game_tick2).
Proof.
  split; [split; [exact default_board_fits | exact game_tick2_running]|].
  exact (running_snake_is_distinct 1000 600 game_tick2
           default_board_fits game_tick2_running).
Defined.

(** ** The snake and the board *)

Lemma running_on_board (W H : Z) (g : SnakeGame) :
  running W H g ->
  (snake g = snake (init_state W H) /\ fruit g = None) \/
  Forall (fun p => in_bounds W H p = true) (snake g).
Proof.
  induction 1 as [|g k _ IH|g ds g' ds' Hrun IH Hp].
  - left. split; reflexivity.
  - rewrite keydown_set. exact IH.
  - right. apply running_inv in Hrun as [HI _].
    destruct (alive_tick_shape W H g g' ds ds' HI Hp)
      as (hd & tl & ate & g1 & Hs & Hm & -> & Hb & _).
    constructor; [exact Hb|].
    destruct IH as [[Hinit Hnof] | Hin].
    + (* first tick: the two segments that stay are on the board too *)
      destruct ate.
      { apply move_ate_Ret in Hm
          as (_ & _ & _ & _ & _ & _ & _ & _ & _ & _ & _ & _ & f & fr & Hf & _).
        congruence. }
      destruct (init_snake_nums W H)
        as (c0 & c1 & c2 & Hs0 & L0 & L1 & L2 & X0 & Y0 & X1 & Y1 & _).
      rewrite Hinit, Hs0 in Hs. inversion Hs; subst hd tl.
      rewrite Hinit, Hs0. cbn [removelast].
      apply (in_bounds_lattice W H _ (advance_lattice W H (direction g) c0 L0))
        in Hb.
      pose proof L0 as [[E0x _] [E0y _]].
      destruct (advance_nums (direction g) c0 E0x E0y) as (_ & _ & Hx & Hy).
      assert (-1 <= dx (direction g) <= 1 /\ -1 <= dy (direction g) <= 1)
        by (destruct (direction g); cbn; lia).
      unfold BLOCK in *.
      repeat (apply Forall_cons;
              [apply in_bounds_lattice; [assumption | unfold BLOCK; lia]|]).
      apply Forall_nil.
    + destruct ate; [exact Hin | now apply removelast_Forall].
Qed.

(** After every tick that leaves the game alive, the whole snake, not only
    its head, is on the board. *)
Theorem alive_snake_is_on_board
    (W H : Z) (g g' : SnakeGame) (ds ds' : list (Z * Z)) :
  running W H g ->
  playStep ds g = Ret (true, g', ds') ->
  Forall (fun p => in_bounds W H p = true) (snake g').
Proof.
  intros Hrun Hp.
  destruct (running_on_board W H g' (run_tick W H g ds g' ds' Hrun Hp))
    as [[_ Hnof] | Hin]; [|exact Hin].
  apply playStep_alive_fruit in Hp as [f Hf]. congruence.
Qed.

Lemma alive_snake_is_on_board_witness :
  running 1000 600 game_tick1 /\
  playStep [(100, 100)] game_tick1 = Ret (true, game_tick2, []) /\
  Forall (fun p => in_bounds 1000 600 p = true) (snake game_tick2).
Proof.
  assert (running 1000 600 game_tick1) as Hr.
  { apply (run_tick 1000 600 default_game [(545, 310)] game_tick1 []);
      [apply run_init | reflexivity]. }
  split; [exact Hr|]. split; [reflexivity|].
  exact (alive_snake_is_on_board 1000 600 game_tick1 game_tick2
           [(100, 100)] [] Hr eq_refl).
Defined.

(** ** The fruit and the snake *)

(** While the game runs, the fruit's rectangle overlaps the rectangle of
    no snake segment: the fruit is placed clear of the snake, and a head
    that reaches it eats it in that very tick. *)
Theorem running_fruit_is_clear (W H : Z) (g : SnakeGame) :
  running W H g -> fruit_clear g.
Proof.
  induction 1 as [|g k _ IH|g ds g' ds' Hrun IH Hp].
  - intros f Hf. discriminate.
  - rewrite keydown_set. exact IH.
  - apply running_inv in Hrun as [HI _].
    pose proof HI as (_ & _ & _ & _ & Hfp).
    destruct (alive_tick_shape W H g g' ds ds' HI Hp)
      as (hd & tl & ate & g1 & Hs & Hm & Hsn & _ & _).
    pose proof (move_ate_reach_inv W H g g1 ate HI Hm) as (_ & _ & Hsy & _).
    apply playStep_Ret in Hp as (ate' & g1' & Hm' & _ & Hb).
    rewrite Hm in Hm'. inversion Hm'; subst ate' g1'.
    apply move_ate_Ret in Hm as (hd' & tl' & Hs' & _ & _ & _ & _ & _ & Hate).
    rewrite Hs in Hs'. inversion Hs'; subst hd' tl'.
    destruct (fruit g1) as [f1|] eqn:Hf1.
    + (* the fruit stays: the new head missed it *)
      destruct Hb as [-> _].
      destruct ate; [destruct Hate as (_ & Hnone & _); congruence|].
      destruct Hate as (_ & Hsame & Hsn1 & _ & Hmiss).
      intros f Hf. rewrite Hf1 in Hf. inversion Hf; subst f1.
      symmetry in Hsame.
      destruct Hmiss as [Hnone | (fr & Hfr & Hc)]; [congruence|].
      unfold fruit_placed in Hfp. rewrite Hsame in Hfp.
      destruct Hfp as (fx & fy & -> & Hfr' & _).
      rewrite Hfr in Hfr'. inversion Hfr'; subst fr.
      rewrite Hsn1. rewrite rect_of_Zpt.
      apply removelast_Forall. constructor; [exact Hc|].
      rewrite <- (rect_of_Zpt fx fy). exact (IH _ Hsame).
    + (* a new fruit is placed *)
      apply createFruit_Ret in Hb as (x & y & -> & _ & _ & HF).
      intros f Hf. cbn [fruit] in Hf. inversion Hf; subst f.
      cbn [snake]. rewrite rect_of_Zpt.
      rewrite Hsy, Forall_map in HF. exact HF.
Qed.

Lemma running_fruit_is_clear_witness :
  running 1000 600 game_tick2 /\ fruit_clear game_tick2.
Proof.
  assert (running 1000 600 game_tick2) as Hr.
  { apply (run_tick 1000 600 game_tick1 [(100, 100)] game_tick2 []);
      [|reflexivity].
    apply (run_tick 1000 600 default_game [(545, 310)] game_tick1 []);
      [apply run_init | reflexivity]. }
  split; [exact Hr | exact (running_fruit_is_clear 1000 600 game_tick2 Hr)].
Defined.

(** When every admissible place overlaps the snake, [createFruit] never
    leaves its loop, whatever is drawn. *)
Theorem createFruit_without_room_loops (g : SnakeGame) (ds : list (Z * Z)) :
  BLOCK <= w g -> BLOCK <= h g ->
  (forall x y, 0 <= x <= w g - BLOCK -> 0 <= y <= h g - BLOCK ->
               collidelist (mkRect x y BLOCK BLOCK) (snake_rect g) <> -1) ->
  createFruit ds g = OutOfDraws.
Proof.
  intros Hw Hh Hfull. unfold createFruit.
  assert (createFruit_sample g ds = OutOfDraws) as ->; [|reflexivity].
  induction ds as [|[r1 r2] ds IH]; simpl; [reflexivity|].
  unfold randint.
  destruct (w g - BLOCK <? 0) eqn:E1; [apply Z.ltb_lt in E1; lia|].
  destruct (h g - BLOCK <? 0) eqn:E2; [apply Z.ltb_lt in E2; lia|].
  cbn [bind]. unfold pygame_Rect. rewrite !trunc_inject_Z.
  destruct (collidelist _ _ =? -1) eqn:Hc; [|exact IH].
  apply Z.eqb_eq in Hc. exfalso. revert Hc. apply Hfull.
  - pose proof (Z.mod_pos_bound r1 (w g - BLOCK - 0 + 1)). lia.
  - pose proof (Z.mod_pos_bound r2 (h g - BLOCK - 0 + 1)). lia.
Qed.

Lemma createFruit_without_room_loops_witness :
  createFruit [(3, 4); (5, 6)] (init_state 20 20) = OutOfDraws.
Proof.
  apply createFruit_without_room_loops; unfold BLOCK; cbn [w h init_state];
    try lia.
  intros x y Hx Hy.
  assert (x = 0) as -> by lia. assert (y = 0) as -> by lia.
  vm_compute. discriminate.
Defined.

(** ** The first tick and the size of the board *)





(** ** Turning back with two key presses *)

Lemma reachable_three_segments (W H : Z) (g : SnakeGame) :
  reachable W H g -> (3 <= length (snake g))%nat.
Proof.
  induction 1 as [|g k _ IH|g ds b g' ds' _ IH Hp].
  - cbn. lia.
  - rewrite keydown_set. exact IH.
  - apply playStep_snake_score in Hp as (ate & g1 & Hm & -> & _).
    apply move_ate_length_score in Hm.
    destruct ate; [destruct Hm as (-> & _) | destruct Hm as (-> & _)]; lia.
Qed.

Lemma advance_back (W H : Z) (d : Direction) (p : Point) :
  lattice_pt W H p -> point_eq (advance (opposite d) (advance d p)) p.
Proof.
  intros Lp.
  pose proof (advance_lattice W H d p Lp) as Lq.
  apply (lattice_point_eq W H); [now apply advance_lattice | assumption |].
  destruct Lp as [[Ex _] [Ey _]], Lq as [[Fx _] [Fy _]].
  destruct (advance_nums d p Ex Ey) as (_ & _ & Hx & Hy).
  destruct (advance_nums (opposite d) (advance d p) Fx Fy)
    as (_ & _ & Hx' & Hy').
  rewrite Hx', Hy', Hx, Hy. destruct d; cbn [opposite dx dy]; lia.
Qed.

(** The guard against turning back looks at the direction as the earlier
    events of the same frame left it.  After a tick that left the game
    alive, a press to the side followed by a press backwards therefore
    does turn the snake back, and the next tick runs the head into the
    segment behind it: it returns game over, without consuming a draw. *)
Theorem two_presses_turn_back
    (W H : Z) (g g1 : SnakeGame) (ds ds1 ds2 : list (Z * Z)) (p : Direction) :
  running W H g ->
  playStep ds g = Ret (true, g1, ds1) ->
  p <> direction g1 -> p <> opposite (direction g1) ->
  direction (keydown (key_of (opposite (direction g1)))
                     (keydown (key_of p) g1))
  = opposite (direction g1) /\
  exists g3,
    playStep ds2 (keydown (key_of (opposite (direction g1)))
                          (keydown (key_of p) g1))
    = Ret (false, g3, ds2).
Proof.
  intros Hrun Hp Hp1 Hp2.
  assert (keydown (key_of (opposite (direction g1))) (keydown (key_of p) g1)
          = set_direction (opposite (direction g1)) g1) as ->.
  { fold (requestDirection p g1).
    fold (requestDirection (opposite (direction g1)) (requestDirection p g1)).
    rewrite !requestDirection_set. cbn [set_direction direction].
    destruct p, (direction g1); cbn; try reflexivity;
      exfalso; ((apply Hp1; reflexivity) || (apply Hp2; reflexivity)). }
  split; [reflexivity|].
  pose proof (run_tick W H g ds g1 ds1 Hrun Hp) as Hrun1.
  pose proof (running_reachable W H g1 Hrun1) as Hr1.
  pose proof (reachable_reach_inv W H g1 Hr1) as HI1.
  apply running_inv in Hrun as [HI _].
  pose proof HI as (_ & _ & _ & Hl & _).
  pose proof (reachable_three_segments W H g1 Hr1) as Hlen.
  pose proof Hp as Hdir.
  apply playStep_snake_score in Hdir as (ate0 & g0 & Hm0 & _ & _ & _ & Hd & _).
  apply move_ate_Ret in Hm0 as (_ & _ & _ & _ & _ & Hd0 & _).
  assert (direction g1 = direction g) as Hdg by congruence.
  destruct (alive_tick_shape W H g g1 ds ds1 HI Hp)
    as (hd & tl & ate & g1' & Hs & _ & Hs1 & _ & _).
  assert (lattice_pt W H hd) as Lhd by (rewrite Hs in Hl; now inversion Hl).
  (* the old head is the second segment, and something follows it *)
  assert (exists rest, rest <> [] /\
                       snake g1 = advance (direction g) hd :: hd :: rest)
    as (rest & Hrest & Hsnake).
  { rewrite Hs1 in Hlen |- *. rewrite Hs.
    destruct ate.
    - exists tl. split; [|reflexivity].
      rewrite Hs in Hlen. cbn in Hlen. destruct tl; [cbn in Hlen; lia|].
      discriminate.
    - rewrite Hs in Hlen. destruct tl as [|t tl]; [cbn in Hlen; lia|].
      change (removelast (hd :: t :: tl)) with (hd :: removelast (t :: tl))
        in Hlen |- *.
      exists (removelast (t :: tl)). split; [|reflexivity].
      destruct (removelast (t :: tl)); [cbn in Hlen; lia | discriminate]. }
  set (g2 := set_direction (opposite (direction g1)) g1).
  assert (reach_inv W H g2) as HI2 by exact HI1.
  assert (snake g2 <> []) as Hne2
    by (unfold g2; cbn [set_direction snake]; rewrite Hsnake; discriminate).
  destruct (move_ate_returns W H g2 HI2 Hne2) as (ate2 & g3 & Hm2).
  pose proof (move_ate_reach_inv W H g2 g3 ate2 HI2 Hm2) as (_ & _ & Hsy3 & _).
  pose proof Hm2 as Hm2'.
  apply move_ate_Ret in Hm2' as (hd2 & tl2 & Hs2 & _ & _ & _ & _ & _ & Hate2).
  unfold g2 in Hs2, Hate2. cbn [set_direction snake direction] in Hs2, Hate2.
  rewrite Hsnake in Hs2. inversion Hs2; subst hd2 tl2.
  rewrite Hdg in Hate2.
  set (nh := advance (direction g) hd) in *.
  set (back := advance (opposite (direction g)) nh) in *.
  assert (exists body, snake g3 = back :: nh :: hd :: body) as [body Hs3].
  { destruct ate2.
    - destruct Hate2 as (_ & _ & -> & _). rewrite Hsnake. eauto.
    - destruct Hate2 as (_ & _ & -> & _). rewrite Hsnake.
      destruct rest as [|r rest]; [contradiction|].
      change (removelast (back :: nh :: hd :: r :: rest))
        with (back :: nh :: hd :: removelast (r :: rest)).
      eauto. }
  assert (colliderect (rect_of back) (rect_of hd) = true) as Hhit.
  { rewrite (rect_of_point_eq back hd (advance_back W H (direction g) hd Lhd)).
    apply colliderect_same. }
  exists g3. unfold playStep, move. rewrite Hm2. cbn [bind].
  rewrite (isGameOver_synced g3 _ _ Hsy3 Hs3).
  assert ((collidelist (rect_of back) (map rect_of (nh :: hd :: body)) =? -1)
          = false) as ->.
  { apply collidelist_hit. cbn [map].
    apply Exists_cons_tl, Exists_cons_hd. exact Hhit. }
  reflexivity.
Qed.

Lemma two_presses_turn_back_witness :
  (running 1000 600 default_game /\
   playStep [(545, 310)] default_game = Ret (true, game_tick1, []) /\
   UP <> direction game_tick1 /\ UP <> opposite (direction game_tick1)) /\
  direction (keydown K_LEFT (keydown K_UP game_tick1)) = LEFT /\
  exists g3,
    playStep [(1, 1)] (keydown K_LEFT (keydown K_UP game_tick1))
    = Ret (false, g3, [(1, 1)]).
Proof.
  assert (UP <> direction game_tick1) as H1 by discriminate.
  assert (UP <> opposite (direction game_tick1)) as H2 by discriminate.
  split; [repeat split; [apply run_init | assumption | assumption]|].
  exact (two_presses_turn_back 1000 600 default_game game_tick1
           [(545, 310)] [] [(1, 1)] UP (run_init 1000 600) eq_refl H1 H2).
Defined.

(** ** The main loop *)

Lemma default_init : __init__ 1000 600 = Ret (init_state 1000 600).
Proof. reflexivity. Qed.

Lemma on_event_game (st : Loop) (e : Event) :
  game (on_event st e) =
  match e with
  | KEYDOWN key => keydown key (game st)
  | _ => game st
  end.
Proof. destruct e as [key| |]; [destruct key|..]; reflexivity. Qed.

Lemma events_keep_running (evs : list Event) :
  forall st,
    keep_running (fold_left on_event evs st) = true <->
    keep_running st = true /\ ~ In (KEYDOWN K_ESCAPE) evs.
Proof.
  induction evs as [|e evs IH]; intros st; cbn [fold_left In].
  - tauto.
  - rewrite IH.
    destruct e as [key| |]; [destruct key|..]; cbn;
      intuition (discriminate || congruence || eauto).
Qed.

Lemma events_pygame_up (evs : list Event) :
  forall st,
    pygame_up (fold_left on_event evs st) = true <->
    pygame_up st = true /\ ~ In (KEYDOWN K_ESCAPE) evs /\ ~ In QUIT evs.
Proof.
  induction evs as [|e evs IH]; intros st; cbn [fold_left In].
  - tauto.
  - rewrite IH.
    destruct e as [key| |]; [destruct key|..]; cbn;
      intuition (discriminate || congruence || eauto).
Qed.

Lemma events_game (W H : Z) (evs : list Event) :
  forall st,
    (reachable W H (game st) ->
     reachable W H (game (fold_left on_event evs st))) /\
    (running W H (game st) ->
     running W H (game (fold_left on_event evs st))) /\
    snake (game (fold_left on_event evs st)) = snake (game st) /\
    score (game (fold_left on_event evs st)) = score (game st).
Proof.
  induction evs as [|e evs IH]; intros st; cbn [fold_left].
  - auto.
  - destruct (IH (on_event st e)) as (Hr & Hrun & Hsn & Hsc).
    rewrite Hsn, Hsc, on_event_game.
    rewrite on_event_game in Hr, Hrun.
    destruct e as [key| |].
    + rewrite (keydown_set key (game st)).
      repeat split; intros Hg;
        [apply Hr; now apply reach_key | apply Hrun; now apply run_key].
    + auto.
    + auto.
Qed.

Lemma main_loop_stopped (frames : list (list (Z * Z) * list Event))
    (st : Loop) :
  keep_running st = false -> main_loop frames st = Ret st.
Proof. intros Hst. destruct frames; cbn; rewrite Hst; reflexivity. Qed.

Lemma iteration_Ret (frame : list (Z * Z) * list Event) (st st1 : Loop) :
  iteration frame st = Ret st1 ->
  pygame_up st = true /\
  exists b g' ds',
    playStep (fst frame) (game st) = Ret (b, g', ds') /\
    st1 = fold_left on_event (snd frame) (mkLoop b g' true).
Proof.
  unfold iteration. destruct (pygame_up st); [|discriminate].
  destruct (playStep (fst frame) (game st)) as [[[b g'] ds']| |];
    cbn; try discriminate.
  intros E. inversion E. eauto 6.
Qed.

Lemma iteration_loop_ok (frame : list (Z * Z) * list Event) (st st1 : Loop) :
  loop_ok st -> keep_running st = true ->
  iteration frame st = Ret st1 -> loop_ok st1.
Proof.
  intros [Hr Hrun] Hk Hit. specialize (Hrun Hk).
  apply iteration_Ret in Hit as (_ & b & g' & ds' & Hp & ->).
  destruct (events_game 1000 600 (snd frame) (mkLoop b g' true))
    as (Hr' & Hrun' & _).
  split.
  - apply Hr'. cbn. eapply reach_tick; eauto.
  - intros Hk'. apply events_keep_running in Hk' as [Hb _]. cbn in Hb.
    subst b. apply Hrun'. cbn. eapply run_tick; eauto.
Qed.

(** The loop gives [playStep] only states of the running game, and it ends
    normally in one of two ways.  When it has ended, the flag is cleared
    and the game is in a reachable state; if pygame is still up (no ESC
    and no window close in the last frame), the last tick was made on a
    state of the running game and returned game over. *)
Theorem main_ends_lost_or_escaped
    (frames : list (list (Z * Z) * list Event)) (st' : Loop) :
  main frames = Ret st' ->
  keep_running st' = false /\
  reachable 1000 600 (game st') /\
  (pygame_up st' = true ->
   exists g ds g1 ds1 evs,
     running 1000 600 g /\
     playStep ds g = Ret (false, g1, ds1) /\
     st' = fold_left on_event evs (mkLoop false g1 true)).
Proof.
  unfold main. rewrite default_init. cbn [bind].
  assert (loop_ok (mkLoop true (init_state 1000 600) true)) as Hok
    by (split; [apply reach_init | intros _; apply run_init]).
  assert (keep_running (mkLoop true (init_state 1000 600) true) = true) as Hk
    by reflexivity.
  revert Hok Hk. generalize (mkLoop true (init_state 1000 600) true).
  induction frames as [|frame frames IH]; intros st Hok Hk; cbn [main_loop];
    rewrite Hk; [discriminate|].
  destruct (iteration frame st) as [st1| |] eqn:Hit; cbn [bind];
    try discriminate.
  pose proof (iteration_loop_ok frame st st1 Hok Hk Hit) as Hok1.
  destruct (keep_running st1) eqn:Hk1.
  - apply IH; assumption.
  - rewrite (main_loop_stopped frames st1 Hk1). intros E; inversion E; subst st'.
    split; [exact Hk1|]. split; [apply Hok1|].
    intros Hup.
    apply iteration_Ret in Hit as (_ & b & g' & ds' & Hp & ->).
    apply events_pygame_up in Hup as (_ & Hnoesc & _).
    destruct b.
    + assert (keep_running (fold_left on_event (snd frame) (mkLoop true g' true))
              = true) as Hcontra by (apply events_keep_running; auto).
      congruence.
    + exists (game st), (fst frame), g', ds', (snd frame).
      split; [apply Hok; exact Hk|]. auto.
Qed.

Lemma main_ends_lost_or_escaped_witness :
  main frames_lost = Ret loop_lost /\
  keep_running loop_lost = false /\ reachable 1000 600 (game loop_lost).
Proof.
  assert (main frames_lost = Ret loop_lost) as Hm by (vm_compute; reflexivity).
  split; [exact Hm|].
  pose proof (main_ends_lost_or_escaped frames_lost loop_lost Hm)
    as (Hk & Hr & _).
  split; [exact Hk | exact Hr].
Defined.

(** A window-close event does not end the loop: the handler shuts pygame
    down but leaves the flag set, so after a frame whose tick left the
    game alive and whose events hold a [QUIT] and no ESC, the loop goes
    into the next tick, which fails in pygame. *)
Theorem window_close_ends_in_error
    (st : Loop) (ds ds' : list (Z * Z)) (evs : list Event) (g' : SnakeGame)
    (frame2 : list (Z * Z) * list Event)
    (rest : list (list (Z * Z) * list Event)) :
  keep_running st = true -> pygame_up st = true ->
  playStep ds (game st) = Ret (true, g', ds') ->
  In QUIT evs -> ~ In (KEYDOWN K_ESCAPE) evs ->
  main_loop ((ds, evs) :: frame2 :: rest) st = Raise PygameError.
Proof.
  intros Hk Hup Hp Hquit Hnoesc.
  cbn [main_loop]. rewrite Hk. unfold iteration at 1. rewrite Hup.
  cbn [fst snd]. rewrite Hp. cbn [bind].
  set (st1 := fold_left on_event evs (mkLoop true g' true)).
  assert (keep_running st1 = true) as ->
    by (apply events_keep_running; auto).
  assert (pygame_up st1 = false) as Hdown.
  { destruct (pygame_up st1) eqn:E; [|reflexivity].
    apply events_pygame_up in E as (_ & _ & Hnoquit). contradiction. }
  unfold iteration. rewrite Hdown. reflexivity.
Qed.

Lemma window_close_ends_in_error_witness :
  main_loop [([(545, 310)], [OtherEvent; QUIT]); ([], []); ([], [])]
            (mkLoop true default_game true)
  = Raise PygameError.
Proof.
  apply (window_close_ends_in_error (mkLoop true default_game true)
           [(545, 310)] [] [OtherEvent; QUIT] game_tick1);
    try reflexivity.
  - right; left; reflexivity.
  - intros [E | [E | []]]; discriminate.
Defined.

(** ESC ends the loop with the frame in which it is pressed: no further
    tick is made, pygame is shut down, and snake and score are as that
    frame's tick left them. *)
Theorem escape_ends_the_loop
    (st : Loop) (ds ds' : list (Z * Z)) (evs : list Event) (g' : SnakeGame)
    (b : bool) (rest : list (list (Z * Z) * list Event)) :
  keep_running st = true -> pygame_up st = true ->
  playStep ds (game st) = Ret (b, g', ds') ->
  In (KEYDOWN K_ESCAPE) evs ->
  exists st1,
    main_loop ((ds, evs) :: rest) st = Ret st1 /\
    keep_running st1 = false /\ pygame_up st1 = false /\
    snake (game st1) = snake g' /\ score (game st1) = score g'.
Proof.
  intros Hk Hup Hp Hesc.
  set (st1 := fold_left on_event evs (mkLoop b g' true)).
  assert (keep_running st1 = false) as Hk1.
  { destruct (keep_running st1) eqn:E; [|reflexivity].
    apply events_keep_running in E as [_ Hno]. contradiction. }
  assert (pygame_up st1 = false) as Hup1.
  { destruct (pygame_up st1) eqn:E; [|reflexivity].
    apply events_pygame_up in E as (_ & Hno & _). contradiction. }
  exists st1. split.
  - cbn [main_loop]. rewrite Hk. unfold iteration. rewrite Hup.
    cbn [fst snd]. rewrite Hp. cbn [bind]. fold st1.
    now apply main_loop_stopped.
  - destruct (events_game 1000 600 evs (mkLoop b g' true))
      as (_ & _ & Hsn & Hsc).
    auto.
Qed.

Lemma escape_ends_the_loop_witness :
  exists st1,
    main_loop [([(545, 310)], [KEYDOWN K_UP; KEYDOWN K_ESCAPE]); ([], [])]
              (mkLoop true default_game true) = Ret st1 /\
    keep_running st1 = false /\ pygame_up st1 = false /\
    snake (game st1) = snake game_tick1 /\ score (game st1) = score game_tick1.
Proof.
  apply (escape_ends_the_loop (mkLoop true default_game true)
           [(545, 310)] [] [KEYDOWN K_UP; KEYDOWN K_ESCAPE] game_tick1 true);
    try reflexivity.
  right; left; reflexivity.
Defined.

(** ** What is drawn *)





(** In a reachable state with a fruit, [drawFruit] raises nothing and
    fills exactly the rectangle the fruit collides with. *)
Theorem fruit_is_drawn_on_its_rectangle (W H : Z) (g : SnakeGame) (f : Point) :
  reachable W H g -> fruit g = Some f ->
  exists fr, fruit_rect g = Some fr /\
             drawFruit g = Ret (INNER_BLOCK_COLOR, fr).
Proof.
  intros Hr Hf.
  apply reachable_reach_inv in Hr as (_ & _ & _ & _ & Hfp).
  unfold fruit_placed in Hfp. unfold drawFruit. rewrite Hf in *.
  destruct Hfp as (fx & fy & -> & Hfr & _).
  exists (mkRect fx fy BLOCK BLOCK). split; [exact Hfr|].
  unfold draw_rect, Zpt, pygame_Rect. cbn [pt_x pt_y].
  now rewrite !trunc_inject_Z.
Qed.

Lemma fruit_is_drawn_on_its_rectangle_witness :
  reachable 1000 600 game_tick1 /\
  fruit game_tick1 = Some (Zpt 545 310) /\
  exists fr, fruit_rect game_tick1 = Some fr /\
             drawFruit game_tick1 = Ret (INNER_BLOCK_COLOR, fr).
Proof.
  assert (reachable 1000 600 game_tick1) as Hr.
  { apply (reach_tick 1000 600 default_game [(545, 310)] true game_tick1 []);
      [apply reach_init | reflexivity]. }
  split; [exact Hr|]. split; [reflexivity|].
  exact (fruit_is_drawn_on_its_rectangle 1000 600 game_tick1 (Zpt 545 310)
           Hr eq_refl).
Defined.

(** ** Instances of the earlier facts *)


Lemma running_without_fruit_is_fresh_witness :
  running 1000 600 (keydown K_UP default_game) /\
  keydown K_UP default_game = set_direction UP default_game.
Proof.
  assert (running 1000 600 (keydown K_UP default_game)) as Hr
    by (apply run_key, run_init).
  split; [exact Hr|].
  exact (running_without_fruit_is_fresh 1000 600 (keydown K_UP default_game)
           Hr eq_refl).
Defined.

(** ** No exception without a window close *)

(** In a reachable state a tick raises nothing: it returns, or the draws
    handed to it run out while [createFruit] is still looking for a free
    place. *)
Theorem tick_returns_or_starves
    (W H : Z) (g : SnakeGame) (ds : list (Z * Z)) :
  reachable W H g ->
  (exists b g' ds', playStep ds g = Ret (b, g', ds')) \/
  (playStep ds g = OutOfDraws /\
   exists g1, move g = Ret g1 /\ fruit g1 = None /\
              createFruit ds g1 = OutOfDraws).
Proof.
  intros Hr.
  pose proof (playStep_never_raises W H g ds) as Hsafe.
  pose proof (reachable_reach_inv W H g Hr) as HI.
  destruct (move_ate_returns W H g HI (reachable_nonempty W H g Hr))
    as (ate & g1 & Hm).
  pose proof (move_ate_reach_inv W H g g1 ate HI Hm) as (_ & _ & Hsy & _).
  pose proof (move_ate_snake_nonempty g g1 ate Hm) as Hne.
  destruct (snake g1) as [|hd body] eqn:Hs1; [contradiction|].
  pose proof (isGameOver_synced g1 hd body Hsy Hs1) as Hover.
  assert (move g = Ret g1) as Hmove by (apply move_Ret; eauto).
  destruct (playStep ds g) as [[[b g'] ds']|e|] eqn:Hp.
  - left. eauto.
  - exfalso. exact (Hsafe e Hr eq_refl).
  - right. split; [reflexivity|].
    unfold playStep in Hp. rewrite Hmove in Hp. cbn [bind] in Hp.
    rewrite Hover in Hp. cbn [bind] in Hp.
    destruct (_ || _); [discriminate|].
    destruct (fruit g1) eqn:Hf; [discriminate|].
    destruct (createFruit ds g1) as [[g2 rest]| |] eqn:Hc; cbn in Hp;
      try discriminate.
    exists g1. repeat split; assumption.
Qed.

Lemma tick_returns_or_starves_witness :
  reachable 1000 600 game_tick1 /\
  exists b g' ds', playStep [(100, 100)] game_tick1 = Ret (b, g', ds').
Proof.
  assert (reachable 1000 600 game_tick1) as Hr.
  { apply (reach_tick 1000 600 default_game [(545, 310)] true game_tick1 []);
      [apply reach_init | reflexivity]. }
  split; [exact Hr|].
  destruct (tick_returns_or_starves 1000 600 game_tick1 [(100, 100)] Hr)
    as [Hret | [Hout _]]; [exact Hret | discriminate Hout].
Defined.

Lemma main_loop_raises_nothing
    (frames : list (list (Z * Z) * list Event)) (e : Exn) :
  Forall (fun frame => ~ In QUIT (snd frame)) frames ->
  forall st,
    loop_ok st -> (keep_running st = true -> pygame_up st = true) ->
    main_loop frames st <> Raise e.
Proof.
  induction 1 as [|frame frames Hnoquit _ IH]; intros st Hok Hup;
    cbn [main_loop]; destruct (keep_running st) eqn:Hk; try discriminate.
  unfold iteration. rewrite (Hup eq_refl).
  destruct (playStep (fst frame) (game st)) as [[[b g'] ds']|e'|] eqn:Hp;
    cbn [bind]; try discriminate.
  - apply IH.
    + apply (iteration_loop_ok frame st _ Hok Hk).
      unfold iteration. rewrite (Hup eq_refl), Hp. reflexivity.
    + intros Hk'. apply events_keep_running in Hk' as [_ Hnoesc].
      apply events_pygame_up. auto.
  - exfalso.
    exact (playStep_never_raises 1000 600 (game st) (fst frame) e'
             (proj1 Hok) Hp).
Qed.

(** The script raises no exception as long as no frame brings a
    window-close event: it ends normally, or is still running when the
    frames handed to it are used up. *)
Theorem main_raises_only_after_window_close
    (frames : list (list (Z * Z) * list Event)) (e : Exn) :
  Forall (fun frame => ~ In QUIT (snd frame)) frames ->
  main frames <> Raise e.
Proof.
  intros Hnoquit. unfold main. rewrite default_init. cbn [bind].
  apply main_loop_raises_nothing; [assumption | | reflexivity].
  split; [apply reach_init | intros _; apply run_init].
Qed.

Lemma main_raises_only_after_window_close_witness :
  main [([(545, 310)], [KEYDOWN K_UP]); ([(100, 100)], [OtherEvent])]
  <> Raise PygameError.
Proof.
  apply main_raises_only_after_window_close.
  repeat constructor; cbn; intros [E | []]; discriminate.
Defined.

(** ** Where the segments can be *)

(** On a board that fits, in every state the game goes through, running
    or just lost, each snake segment is the centre of the board,
    [(w/2, h/2)], displaced by whole blocks. *)
Theorem snake_is_whole_blocks_from_centre (W H : Z) (g : SnakeGame) :
  board_fits W H -> played W H g ->
  Forall (fun p => exists i j : Z,
              (pt_x p == inject_Z W / 2 + inject_Z (i * BLOCK))%Q /\
              (pt_y p == inject_Z H / 2 + inject_Z (j * BLOCK))%Q)
         (snake g).
Proof.
  intros _ Hpl.
  apply played_reachable, reachable_reach_inv in Hpl as (_ & _ & _ & Hl & _).
  eapply Forall_impl; [|exact Hl].
  intros [[nx ex] [ny ey]] [[Ex [i Hi]] [Ey [j Hj]]].
  cbn [pt_x pt_y Qnum Qden] in *. subst ex ey.
  exists i, j. unfold Qeq, BLOCK in *.
  cbn [Qplus Qmult Qdiv Qinv inject_Z Qnum Qden].
  split; lia.
Qed.

Lemma snake_is_whole_blocks_from_centre_witness :
  (board_fits 1010 610 /\
   played 1010 610 (after_tick [(7, 13)] (init_state 1010 610))) /\
  Forall (fun p => exists i j : Z,
              (pt_x p == inject_Z 1010 / 2 + inject_Z (i * BLOCK))%Q /\
              (pt_y p == inject_Z 610 / 2 + inject_Z (j * BLOCK))%Q)
         (snake (after_tick [(7, 13)] (init_state 1010 610))).
Proof.
  assert (board_fits 1010 610) as Hfit by (repeat split; reflexivity).
  assert (played 1010 610 (after_tick [(7, 13)] (init_state 1010 610)))
    as Hpl.
  { apply played_running.
    apply (run_tick 1010 610 (init_state 1010 610) [(7, 13)] _ []);
      [apply run_init | reflexivity]. }
  split; [split; [exact Hfit | exact Hpl]|].
  exact (snake_is_whole_blocks_from_centre 1010 610 _ Hfit Hpl).
Defined.
